(** * Trice: ID registry bookkeeping, line composer and cipher set-up

    A shallow embedding of the Go sources
      - internal/id/manageIDs.go   (preProcessing, postProcessing),
      - the emitter's line composer (TriceLineComposer.WriteString),
      - cmd/trice/handleArgs.go    (createCipher),
    together with the properties the specification states about them. *)

From Stdlib Require Import ZArith Ascii String List Lia Bool Sorted.
From stdpp Require Import base decidable countable gmap strings list pretty sorting.

Local Open Scope string_scope.
Local Open Scope Z_scope.
Local Open Scope list_scope.

(** ** Data model of package id *)

(** [type TriceID int]. *)
Abbreviation TriceID := Z (only parsing).

(** [TriceFmt] is the (macro type, format string) pair stored per ID. *)
Record TriceFmt := mkTriceFmt { Type_ : string; Strg : string }.

#[global] Instance TriceFmt_eq_dec : EqDecision TriceFmt.
Proof. solve_decision. Defined.

#[global] Instance TriceFmt_countable : Countable TriceFmt.
Proof.
  apply (inj_countable' (fun f => (Type_ f, Strg f))
                        (fun p => mkTriceFmt p.1 p.2)).
  by intros [].
Defined.

(** [TriceLI] is the location information of a call site. *)
Record TriceLI := mkTriceLI { File : string; Line : Z }.

(** [TriceIDLookUp] is the ID to format map (til.json),
    [TriceIDLookUpLI] the ID to location map (li.json) and
    [triceFmtLookUp] the reversed format to IDs map. *)
Abbreviation TriceIDLookUp := (gmap Z TriceFmt) (only parsing).
Abbreviation TriceIDLookUpLI := (gmap Z TriceLI) (only parsing).
Abbreviation triceFmtLookUp := (gmap TriceFmt (list Z)) (only parsing).

(** [idData] holds the Id specific data. *)
Record idData := mkIdData {
  idToTrice  : gmap Z TriceFmt;
  triceToId  : gmap TriceFmt (list Z);
  idToLocRef : gmap Z TriceLI;
  idToLocNew : gmap Z TriceLI;
  idCount    : Z;
  IDSpace    : list Z
}.

(** The io.Writer [w] receives whole lines; it is kept as the list of the
    lines written so far, oldest first. *)
Definition Writer := list string.

Definition Fprintln (w : Writer) (line : string) : Writer := w ++ [line].

(** Table entries are compared by their ID. *)
Definition entry_le (a b : Z * TriceFmt) : Prop := a.1 ≤ b.1.

#[global] Instance entry_le_dec : RelDecision entry_le.
Proof. intros a b. unfold entry_le. apply _. Defined.

(** Modelled from the spec: [TriceIDLookUp.reverseS] is not part of the
    sources at hand.  The specification describes it as inverting the format
    table into a map from format to an ordered ID list; the IDs are taken in
    ascending order here. *)
Definition reverseS (m : gmap Z TriceFmt) : gmap TriceFmt (list Z) :=
  foldr (fun (e : Z * TriceFmt) (r : gmap TriceFmt (list Z)) =>
           <[e.2 := e.1 :: default [] (r !! e.2)]> r)
        ∅
        (merge_sort entry_le (map_to_list m)).

Section Registry.

(** Package level settings: the ID range and the command line switches. *)
Variables Min Max : Z.
Variables FnJSON LIFnJSON : string.
Variables DryRun Verbose : bool.

(** *** preProcessing *)

(** One round of the loop [for id := Min; id <= Max; id++]. *)
Definition idSpaceStep (til : gmap Z TriceFmt) (li : gmap Z TriceLI)
    (acc : list Z * Writer) (id : Z) : list Z * Writer :=
  let usedFmt := bool_decide (is_Some (til !! id)) in
  let usedLoc := bool_decide (is_Some (li !! id)) in
  let space := if negb usedFmt && negb usedLoc then acc.1 ++ [id] else acc.1 in
  let w1 := if usedFmt && negb usedLoc
            then Fprintln acc.2 ("ID " +:+ pretty id +:+ " only inside til.json")
            else acc.2 in
  let w2 := if negb usedFmt && usedLoc
            then Fprintln w1 ("ID " +:+ pretty id +:+ " only inside li.json")
            else w1 in
  (space, w2).

(** [preProcessing til li w]: [til] and [li] are the tables that
    [NewLut] and [NewLutLI] load from [FnJSON] and [LIFnJSON].  [make]
    panics on a negative capacity, in which case there is no result.  The
    loop counter runs over the integers from [Min] to [Max]; the Go counter
    is an [int], so this covers every range whose [Max] is below the largest
    [int]. *)
Definition preProcessing (til : gmap Z TriceFmt) (li : gmap Z TriceLI)
    (w : Writer) : option (idData * Writer) :=
  if Max - Min + 1 <? 0 then None
  else
    let r := foldl (idSpaceStep til li) ([], w) (seqZ Min (Max - Min + 1)) in
    Some (mkIdData til (reverseS til) li ∅ (Z.of_nat (size til)) r.1, r.2).

(** An ID is unused when neither table has it as a key. *)
Definition unused (til : gmap Z TriceFmt) (li : gmap Z TriceLI) (id : Z) : Prop :=
  til !! id = None ∧ li !! id = None.

#[global] Instance unused_dec til li id : Decision (unused til li id).
Proof. unfold unused. apply _. Defined.

(** *** The file system behind postProcessing *)

(** What a table file carries. *)
Inductive FileContent :=
| TilContent (m : gmap Z TriceFmt)
| LiContent (m : gmap Z TriceLI).

(** The afero file system: the files, the paths on which a write fails,
    and the [toFile] calls made so far, oldest first. *)
Record Afero := mkAfero {
  files      : gmap string FileContent;
  unwritable : gset string;
  calls      : list (string * FileContent)
}.

(** Modelled from the spec: [toFile] of both table types is not part of
    the sources at hand.  It persists the table under the file name and
    yields an error ([false]) when the file system refuses the write. *)
Definition toFile (c : FileContent) (fSys : Afero) (fn : string) : Afero * bool :=
  if bool_decide (fn ∈ unwritable fSys)
  then (mkAfero (files fSys) (unwritable fSys) (calls fSys ++ [(fn, c)]), false)
  else (mkAfero (<[fn := c]> (files fSys)) (unwritable fSys) (calls fSys ++ [(fn, c)]), true).

(** How a run of a command ends: it returns to its caller, or the process
    is ended by a fatal error, with some information. *)
Inductive Outcome :=
| Returned (fSys : Afero) (w : Writer)
| Exited (fSys : Afero) (w : Writer) (info : string).

Definition outFS (o : Outcome) : Afero :=
  match o with Returned f _ => f | Exited f _ _ => f end.

Definition exited (o : Outcome) : bool :=
  match o with Returned _ _ => false | Exited _ _ _ => true end.

(** Modelled from the spec: [msg.FatalInfoOnErr] of package msg is not part
    of the sources at hand.  Persistence failures are fatal: when the error
    is not nil ([ok] is [false]) the process ends, otherwise the run goes on
    with [next]. *)
Definition FatalInfoOnErr (ok : bool) (info : string) (fSys : Afero) (w : Writer)
    (next : Afero → Writer → Outcome) : Outcome :=
  if ok then next fSys w else Exited fSys w info.

(** Modelled from the spec: [msg.FatalOnErr], as [msg.FatalInfoOnErr]
    without information. *)
Definition FatalOnErr (ok : bool) (fSys : Afero) (w : Writer)
    (next : Afero → Writer → Outcome) : Outcome :=
  FatalInfoOnErr ok EmptyString fSys w next.

(** *** postProcessing *)

(** The end of [postProcessing], from the test of [LIFnJSON] on. *)
Definition writeLI (p : idData) (fSys : Afero) (w : Writer) : Outcome :=
  if String.eqb LIFnJSON "off" || String.eqb LIFnJSON "none" then Returned fSys w
  else
    let r := toFile (LiContent (idToLocNew p)) fSys LIFnJSON in
    FatalInfoOnErr r.2 "could not write LIFnJSON" r.1 w Returned.

(** [postProcessing]. *)
Definition postProcessing (p : idData) (w : Writer) (fSys : Afero) : Outcome :=
  let w1 := if Verbose
            then Fprintln w (pretty (size (idToTrice p)) +:+ " ID's in List " +:+ FnJSON)
            else w in
  let idsAdded := Z.of_nat (size (idToTrice p)) - idCount p in
  if (0 <? idsAdded) && negb DryRun then
    let w2 := if Verbose
              then Fprintln w1 (pretty idsAdded +:+ " ID's were added to List " +:+ FnJSON)
              else w1 in
    let r := toFile (TilContent (idToTrice p)) fSys FnJSON in
    FatalOnErr r.2 r.1 w2 (writeLI p)
  else writeLI p fSys w1.

(** The [toFile] calls made by a run that started on [fSys], oldest
    first. *)
Definition newCalls (fSys : Afero) (o : Outcome) : list (string * FileContent) :=
  drop (length (calls fSys)) (calls (outFS o)).

(** The format table grew since it was loaded. *)
Definition grown (p : idData) : Prop := idCount p < Z.of_nat (size (idToTrice p)).

(** The write of the format table is due and the file system refuses it. *)
Definition tilWriteFails (p : idData) (fSys : Afero) : Prop :=
  grown p ∧ DryRun = false ∧ FnJSON ∈ unwritable fSys.

(** The location file is switched off. *)
Definition liDisabled : Prop := LIFnJSON = "off" ∨ LIFnJSON = "none".

(** *** The walk over the call sites *)

(** A recognized call site: the embedded ID (0 when none is assigned
    yet), its macro type and format string, and where it stands. *)
Record CallSite := mkCallSite {
  siteID  : Z;
  siteFmt : TriceFmt;
  siteLoc : TriceLI
}.

(** What the walk reports or does to the sources. *)
Inductive Event :=
| Rewritten (loc : TriceLI) (id : Z)
| Mismatch (loc : TriceLI) (id : Z) (inTable atSite : TriceFmt)
| ParseError (loc : TriceLI).

(** The result of visiting one call site: the registry afterwards, the ID
    the site resolves to (none for a skipped site) and the events. *)
Record Visit := mkVisit {
  vData   : idData;
  vID     : option Z;
  vEvents : list Event
}.

(** Taking an ID for a format out of the reversed table: the first one
    recorded; the map is only reduced. *)
Definition takeID (r : gmap TriceFmt (list Z)) (f : TriceFmt)
  : option (Z * gmap TriceFmt (list Z)) :=
  match r !! f with
  | Some (id :: ids) => Some (id, <[f := ids]> r)
  | _ => None
  end.

(** Modelled from the spec: the function that handles one call site during
    the walk is not part of the sources at hand; this follows steps 4 and 5
    of the synchronization algorithm, and the sources where they say
    otherwise.  A site with ID 0 takes the first ID that the reversed table
    has for its format; the ID leaves the reversed table, which according to
    the comment at [triceToId] is only reduced, so that it is given out
    once.  Otherwise the site pops the next ID of [IDSpace], which is
    entered in the format table and not in the reversed table, and the site
    is rewritten unless [DryRun]: the tests of update_whitebox_test.go
    expect an ID of its own for each call site, also for equal formats ("no
    more shared").  Nothing is said for an empty [IDSpace], where no result
    is given.  A site with another ID is a parse error outside of the range;
    inside, the ID is entered when the format table lacks it and is then no
    longer unused, so that it leaves [IDSpace] (the data model has IDSpace
    hold the unused IDs and no entry overwritten, and the comment at
    [idToTrice] has this map only extended); a differing entry is reported,
    and the location is recorded regardless. *)
Definition visitSite (p : idData) (c : CallSite) : option Visit :=
  if bool_decide (siteID c = 0) then
    match takeID (triceToId p) (siteFmt c) with
    | Some (id, rev) =>
        Some (mkVisit (mkIdData (idToTrice p) rev (idToLocRef p) (idToLocNew p)
                                (idCount p) (IDSpace p))
                      (Some id) [])
    | None =>
        match IDSpace p with
        | [] => None
        | newID :: rest =>
            let p' := mkIdData (<[newID := siteFmt c]> (idToTrice p)) (triceToId p)
                               (idToLocRef p) (idToLocNew p) (idCount p) rest in
            Some (mkVisit p' (Some newID)
                          (if DryRun then [] else [Rewritten (siteLoc c) newID]))
        end
    end
  else if bool_decide (Min ≤ siteID c ≤ Max) then
    let loc := <[siteID c := siteLoc c]> (idToLocNew p) in
    match idToTrice p !! siteID c with
    | None =>
        Some (mkVisit (mkIdData (<[siteID c := siteFmt c]> (idToTrice p)) (triceToId p)
                                (idToLocRef p) loc (idCount p)
                                (filter (λ id, id ≠ siteID c) (IDSpace p)))
                      (Some (siteID c)) [])
    | Some f =>
        Some (mkVisit (mkIdData (idToTrice p) (triceToId p)
                                (idToLocRef p) loc (idCount p) (IDSpace p))
                      (Some (siteID c))
                      (if bool_decide (f = siteFmt c) then []
                       else [Mismatch (siteLoc c) (siteID c) f (siteFmt c)]))
    end
  else Some (mkVisit p None [ParseError (siteLoc c)]).

(** The result of a walk: the registry afterwards, the resolved ID of
    every site in walk order, and all events in order. *)
Record Walk := mkWalk {
  wData   : idData;
  wIDs    : list (option Z);
  wEvents : list Event
}.

(** The call sites are visited in file-tree walk order. *)
Fixpoint walk (p : idData) (sites : list CallSite) : option Walk :=
  match sites with
  | [] => Some (mkWalk p [] [])
  | c :: rest =>
      v ← visitSite p c;
      r ← walk (vData v) rest;
      Some (mkWalk (wData r) (vID v :: wIDs r) (vEvents v ++ wEvents r))
  end.

(** [cmdManageTriceIDs]: the tables are loaded, the call sites of the
    trees are walked through and the tables are written back.  [til] and
    [li] are the loaded tables and [sites] the call sites in walk order. *)
Definition cmdManageTriceIDs (til : gmap Z TriceFmt) (li : gmap Z TriceLI)
    (sites : list CallSite) (w : Writer) (fSys : Afero) : option (Walk * Outcome) :=
  pw ← preProcessing til li w;
  r ← walk pw.1 sites;
  Some (r, postProcessing (wData r) pw.2 fSys).

End Registry.

(** What [preProcessing] sets up and every visit keeps: [IDSpace] is in
    ascending order and holds no key of the format table, and the IDs that
    the reversed table lists for a format are distinct keys of the format
    table with that format. *)
Definition consistent (p : idData) : Prop :=
  StronglySorted Z.lt (IDSpace p) ∧
  (∀ id, id ∈ IDSpace p → idToTrice p !! id = None) ∧
  (∀ f ids, triceToId p !! f = Some ids →
            NoDup ids ∧ ∀ id, id ∈ ids → idToTrice p !! id = Some f).


(** The table of the test TestInsertSharedIDs0WithParamCount: its nine call
    sites in order, all with ID 0, the line of a site being its place in the
    table, and the list [em] that the test expects for the range from 10000
    to 10099 and an empty list at the start. *)
Definition testSites : list CallSite :=
  [ mkCallSite 0 (mkTriceFmt "TRICE" "Go is fun") (mkTriceLI "test" 1);
    mkCallSite 0 (mkTriceFmt "trice8_1" "hi %d") (mkTriceLI "test" 2);
    mkCallSite 0 (mkTriceFmt "trice8_1" "hi %d") (mkTriceLI "test" 3);
    mkCallSite 0 (mkTriceFmt "TRICE8_1" "hi %d") (mkTriceLI "test" 4);
    mkCallSite 0 (mkTriceFmt "TRICE8_1" "hi %d") (mkTriceLI "test" 5);
    mkCallSite 0 (mkTriceFmt "trice8_1" "hi %d") (mkTriceLI "test" 6);
    mkCallSite 0 (mkTriceFmt "Trice8_1" "hi %d") (mkTriceLI "test" 7);
    mkCallSite 0 (mkTriceFmt "Trice8_2" "hi %d %u") (mkTriceLI "test" 8);
    mkCallSite 0 (mkTriceFmt "Trice16_1" "hi %d") (mkTriceLI "test" 9) ].

Definition testExpected : list (Z * TriceFmt) :=
  [ (10000, mkTriceFmt "TRICE" "Go is fun");
    (10001, mkTriceFmt "trice8_1" "hi %d");
    (10002, mkTriceFmt "trice8_1" "hi %d");
    (10003, mkTriceFmt "TRICE8_1" "hi %d");
    (10004, mkTriceFmt "TRICE8_1" "hi %d");
    (10005, mkTriceFmt "trice8_1" "hi %d");
    (10006, mkTriceFmt "Trice8_1" "hi %d");
    (10007, mkTriceFmt "Trice8_2" "hi %d %u");
    (10008, mkTriceFmt "Trice16_1" "hi %d") ].



(** ** Package emitter: the line composer *)

(** Go strings are byte sequences, [len] counts bytes. *)
Definition len (s : string) : Z := Z.of_nat (String.length s).

(** The bytes the composer looks for.  A Rocq string literal has no escape
    sequences, so the control characters are given by their codes. *)
Definition LF : string := String "010"%char EmptyString.
Definition CRLF : string := String "013"%char LF.
(** The two characters backslash, n (Go literal "\\n"). *)
Definition escLF : string := String "092"%char (String "n"%char EmptyString).
(** The four characters backslash, r, backslash, n (Go literal "\\r\\n"). *)
Definition escCRLF : string := String "092"%char (String "r"%char escLF).

(** [strings.ReplaceAll s old new] for a non-empty [old], as at all its
    uses here: the occurrences of [old] are found from the left and do not
    overlap.  [skip] counts the bytes of a match still to be passed over. *)
Fixpoint replaceFrom (old new : string) (skip : nat) (s : string) : string :=
  match s with
  | EmptyString => EmptyString
  | String c s' =>
      match skip with
      | S k => replaceFrom old new k s'
      | O => if String.prefix old s
             then new +:+ replaceFrom old new (String.length old - 1) s'
             else String c (replaceFrom old new 0 s')
      end
  end.

Definition ReplaceAll (s old new : string) : string := replaceFrom old new 0 s.

(** [strings.Split s sep] for a separator of one byte. *)
Fixpoint Split (s : string) (sep : ascii) : list string :=
  match s with
  | EmptyString => [EmptyString]
  | String c s' =>
      if Ascii.eqb c sep then EmptyString :: Split s' sep
      else match Split s' sep with
           | x :: xs => String c x :: xs
           | [] => [String c EmptyString]
           end
  end.

(** The internal interface [LineWriter]: [writeLine] has no result.  The
    slice handed to it shares its array with the line collector, which the
    composer reuses after the call; a line writer is done with the line when
    [writeLine] returns, so it is given the line as it is at the moment of
    the call.  A line writer that ends the process instead of returning (as
    [RemoteDisplay] does on a stored error) never gets back to the composer;
    what follows is about the calls that return. *)
Class LineWriter (W : Type) := writeLine : list string → W → W.

(** A line writer that keeps every line it is given, oldest first. *)
#[global] Instance logWriter : LineWriter (list (list string)) :=
  fun l w => w ++ [l].

(** [TriceLineComposer]; [line] is the line collector. *)
Record TriceLineComposer (W : Type) := mkComposer {
  lw : W;
  timestampFormat : string;
  prefix : string;
  suffix : string;
  line : list string;
  err : option string
}.
Arguments mkComposer {W}.
Arguments lw {W}.
Arguments timestampFormat {W}.
Arguments prefix {W}.
Arguments suffix {W}.
Arguments line {W}.
Arguments err {W}.

(** [NewLineComposer]. *)
Definition NewLineComposer {W} (w : W) (timestampFormat prefix suffix : string)
  : TriceLineComposer W :=
  let pf := prefix +:+ " " in
  let pf := if String.eqb " " pf then EmptyString else pf in
  let sf := " " +:+ suffix in
  let sf := if String.eqb " " sf then EmptyString else sf in
  mkComposer w timestampFormat pf sf [] None.

(** A composer on the logging line writer. *)
Definition logComposer (tf : string) : TriceLineComposer (list (list string)) :=
  NewLineComposer [] tf "com1:" "|".

Section Composer.

(** The clock: [Time] is what [time.Now()] yields, [Format] renders it
    with the layout [time.StampMicro] and [UTC] converts it. *)
Variable Time : Type.
Variable Format : Time → string.
Variable UTC : Time → Time.

Context {W : Type} `{LineWriter W}.

(** [timestamp] returns the time as string according to
    [timestampFormat]; [now] is the reading of the clock. *)
Definition timestamp (p : TriceLineComposer W) (now : Time) : string :=
  let tf := timestampFormat p in
  if String.eqb tf "LOCmicro" then Format now +:+ "  "
  else if String.eqb tf "UTCmicro" then "UTC " +:+ Format (UTC now) +:+ "  "
  else if String.eqb tf "off" || String.eqb tf "none" then EmptyString
  else if String.eqb tf "zero" then "2006-01-02_1504-05 "
  else tf +:+ " ".

(** The variables of the loop in [WriteString]. *)
Record Loop := mkLoop {
  lLw : W;
  lLine : list string;
  lineEndCount : Z;
  emptyLine : bool
}.

(** One round of [for _, sx := range ss]. *)
Definition composeStep (ts pf sf : string) (st : Loop) (sx : string) : Loop :=
  let n := Z.of_nat (length (lLine st)) in
  let c := lineEndCount st in
  if (0 =? n) && (0 <? c) then
    let l := lLine st ++ [ts; pf; sx; sf] in
    mkLoop (writeLine l (lLw st)) [] (c - 1) (emptyLine st)
  else if (0 =? n) && (0 =? c) then
    mkLoop (lLw st) (lLine st ++ [ts; pf; sx]) c
           (if 0 =? len sx then true else emptyLine st)
  else if (0 <? n) && (0 <? c) then
    let l := lLine st ++ [sx; sf] in
    mkLoop (writeLine l (lLw st)) [] (c - 1) (emptyLine st)
  else if (0 <? n) && (0 =? c) then
    mkLoop (lLw st) (lLine st ++ [sx]) c (emptyLine st)
  else st.

(** The three replacements and the split at the head of [WriteString]. *)
Definition normalize (s : string) : string :=
  let s0 := ReplaceAll s escCRLF LF in
  let s1 := ReplaceAll s0 escLF LF in
  ReplaceAll s1 CRLF LF.

Definition pieces (s : string) : list string := Split (normalize s) "010"%char.

(** [WriteString]: the result is [n], [err] and the composer afterwards;
    [now] is the reading of the clock taken by [p.timestamp()]. *)
Definition WriteString (p : TriceLineComposer W) (now : Time) (s : string)
  : Z * option string * TriceLineComposer W :=
  let n := len s in
  if 0 =? n then (n, None, p)
  else
    let ss := pieces s in
    let lineEndCount := Z.of_nat (length ss) - 1 in
    let ts := timestamp p now in
    let st := foldl (composeStep ts (prefix p) (suffix p))
                    (mkLoop (lw p) (line p) lineEndCount false) ss in
    let line' := if emptyLine st then [] else lLine st in
    (n, None, mkComposer (lLw st) (timestampFormat p) (prefix p) (suffix p) line' (err p)).

(** A sequence of calls of [WriteString], each with its reading of the
    clock. *)
Fixpoint WriteStrings (p : TriceLineComposer W) (calls : list (Time * string))
  : TriceLineComposer W :=
  match calls with
  | [] => p
  | c :: rest => WriteStrings (WriteString p c.1 c.2).2 rest
  end.

(** *** What a call of WriteString amounts to *)

(** Handing lines to the line writer, first to last. *)
Definition writeLines (L : list (list string)) (w : W) : W :=
  foldl (fun w l => writeLine l w) w L.

(** The lines completed by the pieces [init], each of which is followed by
    a line break: the first one continues the line in progress. *)
Definition written (ts pf sf : string) (pending : list string) (init : list string)
  : list (list string) :=
  match init with
  | [] => []
  | x :: xs =>
      (pending ++ match pending with [] => [ts; pf; x; sf] | _ => [x; sf] end)
      :: map (fun y => [ts; pf; y; sf]) xs
  end.

(** The line in progress after the pieces [init] and the final piece
    [last], which no line break follows. *)
Definition retained (ts pf : string) (pending : list string) (init : list string)
    (last : string) : list string :=
  match init, pending with
  | [], _ :: _ => pending ++ [last]
  | _, _ => match last with EmptyString => [] | _ => [ts; pf; last] end
  end.

End Composer.

(** [strings.Contains s pat]. *)
Fixpoint Contains (s pat : string) : bool :=
  String.prefix pat s ||
  match s with
  | EmptyString => false
  | String _ s' => Contains s' pat
  end.

(** The number of occurrences of a byte. *)
Fixpoint countByte (c : ascii) (s : string) : nat :=
  match s with
  | EmptyString => O
  | String d s' => (if Ascii.eqb d c then 1 else 0) + countByte c s'
  end.

(** The timestamp of a line is its first element, the body is what stands
    between the prefix and the suffix. *)
Definition lineTimestamp (l : list string) : option string := head l.

Definition lineBody (l : list string) : string :=
  String.concat EmptyString (removelast (drop 2 l)).

(** ** Command trice: the cipher set-up *)

Module Sha1.

(** crypto/sha1 of the Go library (FIPS 180): bytes and 32 bit words are
    integers, the wrap-around of the word operations is written out. *)
Definition mask32 : Z := 0xFFFFFFFF.
Definition wrap (x : Z) : Z := Z.land x mask32.
Definition add32 (x y : Z) : Z := wrap (x + y).
Definition rotl (n x : Z) : Z :=
  wrap (Z.lor (Z.shiftl x n) (Z.shiftr x (32 - n))).
Definition not32 (x : Z) : Z := Z.lxor x mask32.

(** The bytes of a string. *)
Fixpoint bytes (s : string) : list Z :=
  match s with
  | EmptyString => []
  | String c s' => Z.of_N (N_of_ascii c) :: bytes s'
  end.

(** Big-endian encoding of [x] in [n] bytes. *)
Fixpoint be (n : nat) (x : Z) : list Z :=
  match n with
  | O => []
  | S k => Z.land (Z.shiftr x (8 * Z.of_nat k)) 0xFF :: be k x
  end.

(** Padding: the bit 1, zeros up to 56 modulo 64, the length in bits. *)
Definition pad (m : list Z) : list Z :=
  let l := Z.of_nat (length m) in
  let zeros := Z.to_nat ((55 - l) mod 64) in
  m ++ [0x80] ++ repeat 0 zeros ++ be 8 (8 * l).

(** Reading the 32 bit words of a block, big-endian. *)
Fixpoint words (b : list Z) (n : nat) : list Z :=
  match n, b with
  | S k, b0 :: b1 :: b2 :: b3 :: rest =>
      Z.lor (Z.shiftl b0 24) (Z.lor (Z.shiftl b1 16) (Z.lor (Z.shiftl b2 8) b3))
      :: words rest k
  | _, _ => []
  end.

(** The message schedule, kept newest first: [w] holds the last sixteen
    words and more. *)
Fixpoint schedule (n : nat) (w : list Z) : list Z :=
  match n with
  | O => w
  | S k =>
      let x := Z.lxor (Z.lxor (nth 2 w 0) (nth 7 w 0))
                      (Z.lxor (nth 13 w 0) (nth 15 w 0)) in
      schedule k (rotl 1 x :: w)
  end.

Definition f (t b c d : Z) : Z :=
  if t <? 20 then Z.lor (Z.land b c) (Z.land (not32 b) d)
  else if t <? 40 then Z.lxor (Z.lxor b c) d
  else if t <? 60 then Z.lor (Z.lor (Z.land b c) (Z.land b d)) (Z.land c d)
  else Z.lxor (Z.lxor b c) d.

Definition K (t : Z) : Z :=
  if t <? 20 then 0x5A827999
  else if t <? 40 then 0x6ED9EBA1
  else if t <? 60 then 0x8F1BBCDC
  else 0xCA62C1D6.

Record Digest := mkDigest { h0 : Z; h1 : Z; h2 : Z; h3 : Z; h4 : Z }.

Definition init : Digest :=
  mkDigest 0x67452301 0xEFCDAB89 0x98BADCFE 0x10325476 0xC3D2E1F0.

Definition round (st : Digest * Z) (wt : Z) : Digest * Z :=
  let '(mkDigest a b c d e, t) := st in
  let tmp := add32 (add32 (add32 (add32 (rotl 5 a) (f t b c d)) e) wt) (K t) in
  (mkDigest tmp a (rotl 30 b) c d, t + 1).

Definition block (h : Digest) (b : list Z) : Digest :=
  let w := rev (schedule 64 (rev (words b 16))) in
  let r := (foldl round (h, 0) w).1 in
  mkDigest (add32 (h0 h) (h0 r)) (add32 (h1 h) (h1 r)) (add32 (h2 h) (h2 r))
           (add32 (h3 h) (h3 r)) (add32 (h4 h) (h4 r)).

(** The blocks of the padded message; [n] is their number. *)
Fixpoint blocks (n : nat) (h : Digest) (m : list Z) : Digest :=
  match n with
  | O => h
  | S k => blocks k (block h (take 64 m)) (drop 64 m)
  end.

(** [h.Write(m)] followed by [h.Sum(nil)] on a new hash: 20 bytes. *)
Definition sum (m : list Z) : list Z :=
  let p := pad m in
  let d := blocks (length p / 64) init p in
  be 4 (h0 d) ++ be 4 (h1 d) ++ be 4 (h2 d) ++ be 4 (h3 d) ++ be 4 (h4 d).

End Sha1.

(** The XTEA cipher of golang.org/x/crypto/xtea, as far as its set-up goes:
    a cipher is made from its key, and [NewCipher] refuses every key that
    is not 16 bytes long. *)
Record Cipher := mkCipher { cipherKey : list Z }.

Definition NewCipher (key : list Z) : option Cipher :=
  if Z.of_nat (length key) =? 16 then Some (mkCipher key) else None.

(** What [createCipher] prints on request. *)
Inductive Printed :=
| PrintedKey (key : list Z)
| PrintedNoEncryption.

(** The results of [createCipher]: the cipher, the encryption flag, the
    error, and what was printed. *)
Record CipherResult := mkCipherResult {
  crCipher : option Cipher;
  crCrypto : bool;
  crErr : option string;
  crOut : list Printed
}.

(** [createCipher]: with password "none" the encryption flag is set false,
    otherwise true.  [key[:16]] is the first 16 bytes of the hash, which
    has 20. *)
Definition createCipher (password : string) (show : bool) : CipherResult :=
  let key := Sha1.sum (Sha1.bytes password) in
  let key := take 16 key in
  match NewCipher key with
  | None => mkCipherResult None false (Some "NewCipher returned error") []
  | Some c =>
      if negb (String.eqb "none" password) then
        mkCipherResult (Some c) true None (if show then [PrintedKey key] else [])
      else
        mkCipherResult (Some c) false None (if show then [PrintedNoEncryption] else [])
  end.

(** ** More of the line composer *)

(** What the line in progress holds between the prefix and its end. *)
Definition progressBody (l : list string) : string :=
  String.concat EmptyString (drop 2 l).

(** A line as the composer writes it for a given prefix and suffix: a
    timestamp, the prefix, one or more fragments, the suffix. *)
Definition fullLine (pf sf : string) (l : list string) : Prop :=
  ∃ t frags, frags ≠ [] ∧ l = t :: pf :: frags ++ [sf].

(** A line in progress: none, or a timestamp, the prefix and one or more
    fragments. *)
Definition openLine (pf : string) (l : list string) : Prop :=
  l = [] ∨ ∃ t frags, frags ≠ [] ∧ l = t :: pf :: frags.

(** ** More of the ID registry *)

(** What [preProcessing] prints for an ID: a line when only one of the two
    tables has it. *)
Definition driftLine (til : gmap Z TriceFmt) (li : gmap Z TriceLI) (id : Z)
  : option string :=
  match til !! id, li !! id with
  | Some _, None => Some ("ID " +:+ pretty id +:+ " only inside til.json")
  | None, Some _ => Some ("ID " +:+ pretty id +:+ " only inside li.json")
  | _, _ => None
  end.

(** The IDs of the range that one of the tables has as a key. *)
Definition usedIDs (Min Max : Z) (til : gmap Z TriceFmt) (li : gmap Z TriceLI)
  : gset Z :=
  filter (λ id, Min ≤ id ≤ Max) (dom til ∪ dom li).

Section Loading.

Variables (Min Max : Z) (FnJSON LIFnJSON : string).

(** [NewLut] and [NewLutLI] read a table from a file of the file system.
    They are not part of the sources at hand and are taken as they come:
    both get the writer, on which they may print, and the file system. *)
Variable NewLut : Writer → Afero → string → gmap Z TriceFmt * Writer * Afero.
Variable NewLutLI : Writer → Afero → string → gmap Z TriceLI * Writer * Afero.

(** [preProcessing] from its first line: the two tables are loaded, the
    format table first, and the rest works on what was loaded and on the
    writer as the loading left it. *)
Definition preProcessingFrom (w : Writer) (fSys : Afero)
  : option (idData * Writer * Afero) :=
  let t := NewLut w fSys FnJSON in
  let l := NewLutLI t.1.2 t.2 LIFnJSON in
  r ← preProcessing Min Max t.1.1 l.1.1 l.1.2;
  Some (r.1, r.2, l.2).

End Loading.

(** For the examples: loaders that find a given table and print the name of
    the file. *)
Definition loadTil (til : gmap Z TriceFmt) (w : Writer) (fSys : Afero) (fn : string)
  : gmap Z TriceFmt * Writer * Afero :=
  (til, Fprintln w ("read " +:+ fn), fSys).

Definition loadLi (li : gmap Z TriceLI) (w : Writer) (fSys : Afero) (fn : string)
  : gmap Z TriceLI * Writer * Afero :=
  (li, Fprintln w ("read " +:+ fn), fSys).

(** What a run has printed when it ends. *)
Definition outW (o : Outcome) : Writer :=
  match o with Returned _ w => w | Exited _ w _ => w end.

(** ** More of command trice: logging *)

(** The flag sets of [HandleArgs], one for each subcommand. *)
Inductive FlagSet := hCmd | uCmd | cCmd | lCmd | zCmd | vCmd.

(** What the commands do to the outside, in order: lines and text without a
    line end on the standard output, lines of the log, the defaults of a
    flag set, what package flag prints while it parses, what [createCipher]
    prints, and the calls of [Update] and [id.ZeroSourceTreeIds] with their
    arguments. *)
Inductive Output :=
| OutLine (s : string)
| OutText (s : string)
| OutLog (s : string)
| OutDefaults (f : FlagSet)
| OutFlag (s : string)
| OutCipher (p : Printed)
| OutUpdate (dir fn : string) (run verbose : bool)
| OutZero (src : string) (run : bool).

(** How a command ends: it returns its error, the process is ended by
    [log.Fatal] or by package flag, it stays in the receive loop, which has
    no way out, or it panics. *)
Inductive CmdEnd :=
| Returns (err : option string)
| LogFatal (msg : string)
| FlagExit
| Receives (port : string) (baud : Z)
| Panics (msg : string).

(** The values of the flags of all flag sets. *)
Record Flags := mkFlags {
  pSrcU : string; pDryR : bool; pLU : string; pVerb : bool;
  pPort : string; pBaud : Z; pL : string; pCol : string; pKey : string; pShow : bool;
  pSet : string; pC : string; pPal : string;
  pSrcZ : string; pRunZ : bool
}.

(** The defaults of the flags; the source directory of update is the
    working directory. *)
Definition flagDefaults (wd : string) : Flags :=
  mkFlags wd false "til.json" false
          EmptyString 38400 "til.json" "default" "none" false
          "position" "til.json" "default"
          EmptyString false.

(** What parsing gives: the values of the flags, what package flag has
    printed, and its error. *)
Record Parsed := mkParsed {
  prFlags : Flags;
  prOut : list string;
  prErr : option string
}.

(** The flag sets made with [flag.ExitOnError]: package flag ends the
    process when it cannot parse their arguments. *)
Definition exitOnError (f : FlagSet) : bool :=
  match f with
  | uCmd | lCmd | cCmd => true
  | zCmd | hCmd | vCmd => false
  end.

(** The subcommand switch of [HandleArgs]: the flag set to parse with. *)
Definition subCommand (subCmd : string) : option FlagSet :=
  if String.eqb subCmd "h" then Some hCmd
  else if String.eqb subCmd "help" then Some hCmd
  else if String.eqb subCmd "version" then Some vCmd
  else if String.eqb subCmd "u" then Some uCmd
  else if String.eqb subCmd "update" then Some uCmd
  else if String.eqb subCmd "check" then Some cCmd
  else if String.eqb subCmd "log" then Some lCmd
  else if String.eqb subCmd "zeroSourceTreeIds" then Some zCmd
  else None.

(** A slice of strings under the verb [%s]. *)
Definition showSlice (l : list string) : string :=
  "[" +:+ String.concat " " l +:+ "]".

Section Commands.

(** The items of an ID list ([id.List] is a slice of them). *)
Variable Item : Type.

(** What lies outside: [Read] is what [p.Read(fn)] finds in a file (nothing
    on an error), [GetSerialPorts] the serial ports of the system or an
    error, and [SetUp] whether a serial port can be set up. *)
Variable Read : string → option (list Item).
Variable GetSerialPorts : list string + string.
Variable SetUp : string → Z → bool.

(** [Update] is [p.Update] on a directory and a file name: the new list and
    its error; [Check] is what [emit.Check] prints; [Abs] is [filepath.Abs];
    [Parse] is the parsing of the arguments of a subcommand by its flag set,
    from the defaults. *)
Variable Update : string → string → bool → bool → list Item → list Item * option string.
Variable Check : list Item → string → string → list string.
Variable Abs : string → string + string.
Variable Parse : FlagSet → list string → Flags → Parsed.

(** The version, set when the executable is built, and the arguments of
    the process. *)
Variables version commit date : string.
Variable osArgs : list string.

(** The variables the commands work on: the ID list, the cipher and the
    encryption flag of package receiver, and the output so far. *)
Record Env := mkEnv {
  idList : list Item;
  rCipher : option Cipher;
  rCrypto : bool;
  output : list Output
}.

Definition put (e : Env) (o : list Output) : Env :=
  mkEnv (idList e) (rCipher e) (rCrypto e) (output e ++ o).

(** [doSerialReceive]: once the port is set up, the loop is entered. *)
Definition doSerialReceive (port : string) (baud : Z) (e : Env) : Env * CmdEnd :=
  if negb (SetUp port baud) then
    (put e [OutLine ("Could not set up serial port " +:+ port);
            OutLine "try -port COMscan"], Returns None)
  else
    (put e [OutLine ("Opened serial port " +:+ port)], Receives port baud).

(** [logTrices]; the flag set is only used for its defaults. *)
Definition logTrices (cmd : FlagSet) (port : string) (baud : Z) (fn : string)
    (password : string) (show : bool) (e : Env) : Env * CmdEnd :=
  if String.eqb EmptyString port then (put e [OutDefaults cmd], Returns None)
  else
    let read :=
      if negb (String.eqb "none" fn) then
        match Read fn with
        | None => inr (put e [OutLine ("ID list " +:+ fn +:+ " not found, exit")])
        | Some l => inl (mkEnv l (rCipher e) (rCrypto e) (output e))
        end
      else inl e in
    match read with
    | inr e1 => (e1, Returns None)
    | inl e1 =>
        let r := createCipher password show in
        let e2 := mkEnv (idList e1) (crCipher r) (crCrypto r)
                        (output e1 ++ (OutCipher <$> crOut r)) in
        match crErr r with
        | Some err => (e2, Returns (Some err))
        | None =>
            let scan :=
              if String.eqb port "COMscan" then
                let e3 := put e2 [OutLog "Scan for serial ports..."] in
                match GetSerialPorts with
                | inr err => inr (e3, "Error during serial port search" +:+ err)
                | inl [] => inr (e3, "Could not find serial port on system")
                | inl (first :: _) =>
                    inl (put e3 [OutLog ("Take serial port " +:+ first)], first)
                end
              else inl (e2, port) in
            match scan with
            | inr (e3, msg) => (e3, LogFatal msg)
            | inl (e3, port') =>
                let e4 := put e3 [OutLine ("id list file " +:+ fn +:+ " with "
                                           +:+ pretty (length (idList e3)) +:+ " items")] in
                doSerialReceive port' baud e4
            end
        end
    end.

(** [ver] prints the version; without one it returns an error. *)
Definition ver (e : Env) : Env * CmdEnd :=
  if negb (String.eqb EmptyString version) then
    (put e [OutText ("version=" +:+ version +:+ ", commit=" +:+ commit
                     +:+ ", built at " +:+ date)], Returns None)
  else
    (put e [OutText "version=devel, commit=unknown, built after 2020-02-10-1800"],
     Returns (Some "No goreleaser generated executable")).

(** [help] prints the subcommands with the defaults of their flags. *)
Definition help (e : Env) : Env * CmdEnd :=
  ver (put e
    [OutLine "syntax: 'trice subcommand' [params]";
     OutLine "subcommand 'help', 'h'";
     OutDefaults hCmd;
     OutLine "subcommand 'update', 'upd', 'u'";
     OutDefaults uCmd;
     OutLine "subcommand 'check'";
     OutDefaults cCmd;
     OutLine "subcommand 'log', 'l'";
     OutDefaults lCmd;
     OutLine "subcommand 'zeroSourceTreeIds' (avoid using this subcommand normally)";
     OutDefaults zCmd;
     OutLine "subcommand 'version', 'ver'. 'v'";
     OutDefaults vCmd;
     OutLine "examples:";
     OutLine "    'trice update [-src sourcerootdir]', default sourcerootdir is ./";
     OutLine "    'trice log [-port COMn] [-baud m]', default port is COMscan, default m is 38400, fixed to 8N1";
     OutLine "    'trice zeroSourceTreeIds -dir sourcerootdir]'";
     OutLine "    'trice version'"]).

(** [update]: parse source tree, update IDs and is list. *)
Definition update (dryRun : bool) (dir fn : string) (verbose : bool) (e : Env)
  : Env * CmdEnd :=
  let r := Update dir fn (negb dryRun) verbose (idList e) in
  let e1 := mkEnv r.1 (rCipher e) (rCrypto e)
                  (output e ++ [OutUpdate dir fn (negb dryRun) verbose]) in
  match r.2 with
  | Some err =>
      (e1, Returns (Some ("failed update on " +:+ dir +:+ " with " +:+ fn +:+ ": " +:+ err)))
  | None =>
      (put e1 [OutLine (pretty (length (idList e1)) +:+ " ID's in list " +:+ fn)],
       Returns None)
  end.

(** [checkList]: log the id list with dataset. *)
Definition checkList (fn dataset palette : string) (e : Env) : Env * CmdEnd :=
  match Read fn with
  | None => (put e [OutLine ("ID list " +:+ fn +:+ " not found, exit")], Returns None)
  | Some l =>
      let e1 := mkEnv l (rCipher e) (rCrypto e) (output e) in
      (put e1 (OutLine <$> Check l dataset palette), Returns None)
  end.

(** [zeroIds]: replace all ID's in sourc tree with 0. *)
Definition zeroIds (dryRun : bool) (SrcZ : string) (cmd : FlagSet) (e : Env)
  : Env * CmdEnd :=
  if String.eqb SrcZ EmptyString then
    (put e [OutDefaults cmd], Returns (Some "no source tree root specified"))
  else
    (put e [OutZero SrcZ (negb dryRun)], Returns None).

(** [HandleArgs] evaluates the arguments slice of strings; the ID list is
    made anew.  The length that is tested is that of the arguments of the
    process, the subcommand is taken from [args]. *)
Definition HandleArgs (wd : string) (args : list string) (e : Env) : Env * CmdEnd :=
  let e := mkEnv [] (rCipher e) (rCrypto e) (output e) in
  if (length osArgs <? 2)%nat then (e, Returns (Some "no args, try: 'trice help'"))
  else
    match args with
    | _ :: subCmd :: subArgs =>
        match subCommand subCmd with
        | None => (put e [OutLine "try: 'trice help|h'"], Returns None)
        | Some f =>
            let r := Parse f subArgs (flagDefaults wd) in
            let e1 := put e (OutFlag <$> prOut r) in
            let fl := prFlags r in
            match prErr r with
            | Some err =>
                if exitOnError f then (e1, FlagExit)
                else (e1, Returns (Some ("failed to parse " +:+ showSlice subArgs
                                         +:+ ": " +:+ err)))
            | None =>
                match f with
                | hCmd => help e1
                | uCmd =>
                    match Abs (pLU fl) with
                    | inr err =>
                        (e1, Returns (Some ("failed to parse " +:+ pLU fl +:+ ": " +:+ err)))
                    | inl lU =>
                        match Abs (pSrcU fl) with
                        | inr err =>
                            (e1, Returns (Some ("failed to parse " +:+ pSrcU fl
                                                +:+ ": " +:+ err)))
                        | inl srcU => update (pDryR fl) srcU lU (pVerb fl) e1
                        end
                    end
                | cCmd => checkList (pC fl) (pSet fl) (pPal fl) e1
                | lCmd => logTrices lCmd (pPort fl) (pBaud fl) (pL fl) (pKey fl) (pShow fl) e1
                | zCmd => zeroIds (pRunZ fl) (pSrcZ fl) zCmd e1
                | vCmd => ver e1
                end
            end
        end
    | _ => (e, Panics "index out of range")
    end.

End Commands.

(** For the examples: an update that changes nothing, and a parser that
    leaves the defaults. *)
Definition updateNone (dir fn : string) (run verbose : bool) (l : list nat)
  : list nat * option string := (l, None).

Definition parseDefaults (f : FlagSet) (args : list string) (fl : Flags) : Parsed :=
  mkParsed fl [] None.

(** ** Package emitter: the remote display *)

(** The arguments of a remote call: a line, or a slice of integers. *)
Inductive RpcArgs :=
| ArgLine (l : list string)
| ArgInts (l : list Z).

(** How a function of the remote display ends: it returns, the process is
    ended by a fatal error, or it panics.  [Exit] carries the text of the
    error; the file name and the line that [log.Fatal] prints after it are
    left out. *)
Inductive Run (A : Type) :=
| Done (a : A)
| Exit (msg : string)
| Panic (msg : string).
Arguments Done {A}.
Arguments Exit {A}.
Arguments Panic {A}.

Section Remote.

(** The network: [Client] is what [*rpc.Client] points to, [Dial] is
    [rpc.Dial] on "tcp" and [Call] is the method Call of the client; both may change
    the state [Net] of the network and may yield an error. *)
Variable Client : Type.
Variable Net : Type.
Variable Dial : Net → string → Net * (Client + string).
Variable Call : Net → Client → string → RpcArgs → Net * option string.
Variable showClient : Client → string.

(** Package level settings and the arguments of the process. *)
Variables IPAddr IPPort : string.
Variable Verbose : bool.
Variable osArgs : list string.

(** The network together with the calls made so far, oldest first. *)
Record World := mkWorld {
  net : Net;
  rpcCalls : list (string * RpcArgs)
}.

(** [RemoteDisplay] is transferring to a remote display object. *)
Record RemoteDisplay := mkRemoteDisplay {
  rdW : Writer;
  rdErr : option string;
  rdCmd : string;
  rdParams : string;
  rdIPAddr : string;
  rdIPPort : string;
  rdPtrRPC : option Client
}.

Definition setErr (p : RemoteDisplay) (e : option string) : RemoteDisplay :=
  mkRemoteDisplay (rdW p) e (rdCmd p) (rdParams p) (rdIPAddr p) (rdIPPort p) (rdPtrRPC p).

Definition rdPrint (p : RemoteDisplay) (s : string) : RemoteDisplay :=
  mkRemoteDisplay (Fprintln (rdW p) s) (rdErr p) (rdCmd p) (rdParams p)
                  (rdIPAddr p) (rdIPPort p) (rdPtrRPC p).

(** [p.PtrRPC.Call]: a call through a nil pointer panics. *)
Definition rpcCall (p : RemoteDisplay) (method : string) (args : RpcArgs) (wd : World)
  : World * Run RemoteDisplay :=
  match rdPtrRPC p with
  | None => (wd, Panic "invalid memory address or nil pointer dereference")
  | Some c =>
      let r := Call (net wd) c method args in
      (mkWorld r.1 (rpcCalls wd ++ [(method, args)]), Done (setErr p r.2))
  end.

(** [writeLine] is implementing the Linewriter interface for RemoteDisplay;
    [ErrorFatal] ends the process if [p.Err] is not nil. *)
Definition rdWriteLine (p : RemoteDisplay) (l : list string) (wd : World)
  : World * Run RemoteDisplay :=
  match rdErr p with
  | Some e => (wd, Exit e)
  | None => rpcCall p "Server.WriteLine" (ArgLine l) wd
  end.

(** Modelled from the spec: [msg.FatalOnErr], whose code is not part of the
    sources at hand: an error that is not nil ends the process, a nil error
    lets the run go on. *)
Definition rdFatalOnErr (p : RemoteDisplay) : Run RemoteDisplay :=
  match rdErr p with
  | Some e => Exit e
  | None => Done p
  end.

(** [Connect] is called by the client and tries to dial. *)
Definition Connect (p : RemoteDisplay) (wd : World) : World * Run RemoteDisplay :=
  let addr := rdIPAddr p +:+ ":" +:+ rdIPPort p in
  match rdPtrRPC p with
  | Some c =>
      (wd, Done (if Verbose then rdPrint p ("already connected " +:+ showClient c) else p))
  | None =>
      let p1 := if Verbose then rdPrint p ("dialing " +:+ addr +:+ " ...") else p in
      let r := Dial (net wd) addr in
      let wd1 := mkWorld r.1 (rpcCalls wd) in
      let p2 := mkRemoteDisplay (rdW p1)
                  (match r.2 with inl _ => None | inr e => Some e end)
                  (rdCmd p1) (rdParams p1) (rdIPAddr p1) (rdIPPort p1)
                  (match r.2 with inl c => Some c | inr _ => None end) in
      match rdFatalOnErr p2 with
      | Done p3 =>
          (wd1, Done (if Verbose
                      then rdPrint p3 ("...remoteDisplay @ " +:+ addr +:+ " connected.")
                      else p3))
      | r => (wd1, r)
      end
  end.

(** [NewRemoteDisplay] creates a connection to a remote display; [args[0]]
    panics on an empty slice. *)
Definition NewRemoteDisplay (w : Writer) (args : list string) (wd : World)
  : World * Run RemoteDisplay :=
  match args with
  | [] => (wd, Panic "index out of range [0] with length 0")
  | cmd :: rest =>
      Connect (mkRemoteDisplay w None cmd (String.concat " " rest) IPAddr IPPort None) wd
  end.

(** [stopServer] sends the signal to quit to the display server. *)
Definition stopServer (p : RemoteDisplay) (ts : Z) (wd : World)
  : World * Run RemoteDisplay :=
  let p1 := if Verbose then rdPrint p "sending Server.Shutdown..." else p in
  match rpcCall p1 "Server.Shutdown" (ArgInts [ts]) wd with
  | (wd1, Done p2) => (wd1, rdFatalOnErr p2)
  | r => r
  end.

(** [ScShutdownRemoteDisplayServer] connects and sends the shutdown message;
    it returns [p.Err].  Its [args] are extended and then left aside: the
    display is made from the arguments of the process. *)
Definition ScShutdownRemoteDisplayServer (w : Writer) (timeStamp : Z)
    (args : list string) (wd : World) : World * Run (option string) :=
  let args := args ++ [EmptyString; EmptyString] in
  match NewRemoteDisplay w osArgs wd with
  | (wd1, Done p) =>
      let c := match rdPtrRPC p with
               | None => Connect p wd1
               | Some _ => (wd1, Done p)
               end in
      match c with
      | (wd2, Done p1) =>
          match stopServer p1 timeStamp wd2 with
          | (wd3, Done p2) => (wd3, Done (rdErr p2))
          | (wd3, Exit e) => (wd3, Exit e)
          | (wd3, Panic e) => (wd3, Panic e)
          end
      | (wd2, Exit e) => (wd2, Exit e)
      | (wd2, Panic e) => (wd2, Panic e)
      end
  | (wd1, Exit e) => (wd1, Exit e)
  | (wd1, Panic e) => (wd1, Panic e)
  end.

End Remote.

(** A network for the examples: clients and network states are numbers,
    every dial succeeds and gives the state as the client, and the server
    refuses every line but accepts a shutdown. *)
Definition dialOK (n : nat) (addr : string) : nat * (nat + string) := (S n, inl n).

Definition callRefuse (n : nat) (c : nat) (method : string) (a : RpcArgs)
  : nat * option string :=
  if String.eqb method "Server.WriteLine" then (n, Some "refused") else (n, None).


(** ** The target: the time base of stm32f0xx_it.c *)

Module Target.

(** Unsigned integers of 16, 32 and 64 bits wrap around. *)
Definition u16 (z : Z) : Z := z mod 2 ^ 16.
Definition u32 (z : Z) : Z := z mod 2 ^ 32.
Definition u64 (z : Z) : Z := z mod 2 ^ 64.

(** The static counters of the file: [us64] counts microseconds in steps of
    1000, [us16] runs parallel to it and is reset every 10 ms, [ms32] counts
    milliseconds, [ms16] is reset every 10 s, and [us_1] holds the last
    reading. *)
Record Counters := mkCounters {
  us64 : Z;
  us16 : Z;
  ms32 : Z;
  ms16 : Z;
  us_1 : Z
}.

(** All counters are 0 after a reset. *)
Definition reset : Counters := mkCounters 0 0 0 0 0.

(** [SysTick_Handler] handles the system tick timer. *)
Definition SysTick_Handler (c : Counters) : Counters :=
  let a := u64 (us64 c + 1000) in
  let b := u16 (us16 c + 1000) in
  let b := if b <? 10000 then b else 0 in
  let m := u32 (ms32 c + 1) in
  let n := u16 (ms16 c + 1) in
  let n := if n <? 10000 then n else 0 in
  mkCounters a b m n (us_1 c).

(** The microsecond part that [US_DUTY] computes from the reload value and
    the current value of the system tick timer, in 32 bits. *)
Definition usOffset (LOAD VAL : Z) : Z :=
  Z.shiftr (u32 (u32 (LOAD - VAL) * 87381)) 22.

(** [US_DUTY] updates [us_1] using the current systick value. *)
Definition US_DUTY (LOAD VAL : Z) (c : Counters) : Counters :=
  let us := u64 (us64 c + usOffset LOAD VAL) in
  let correction := if us <? us_1 c then 1000 else 0 in
  mkCounters (us64 c) (us16 c) (ms32 c) (ms16 c) (u64 (us + correction)).

(** [Us32] reads the 1us tick: a 32-bit stamp. *)
Definition Us32 (LOAD VAL : Z) (c : Counters) : Counters * Z :=
  let c' := US_DUTY LOAD VAL c in (c', u32 (us_1 c')).

(** [milliSecond] reads the millisecond counter. *)
Definition milliSecond (c : Counters) : Z := ms32 c.

End Target.

(** * Properties *)

(** ** preProcessing: the ID space *)

Section IDSpaceFacts.

Variables (Min Max : Z) (til : gmap Z TriceFmt) (li : gmap Z TriceLI).

Abbreviation unused := (unused til li).

(** The loop collects the unused IDs of the list it runs over, in order. *)
Lemma idSpace_fold (ids : list Z) (acc : list Z) (w : Writer) :
  (foldl (idSpaceStep til li) (acc, w) ids).1 = acc ++ filter unused ids.
Proof.
  revert acc w. induction ids as [|id ids IH]; intros acc w; simpl.
  - by rewrite app_nil_r.
  - destruct (idSpaceStep til li (acc, w) id) as [acc' w'] eqn:E.
    rewrite IH. rewrite filter_cons.
    unfold idSpaceStep in E. simpl in E.
    assert (acc' = acc ++ (if decide (unused id) then [id] else [])) as ->.
    { destruct (decide (unused id)) as [[Ht Hl]|Hn].
      - rewrite Ht, Hl in E. simpl in E. by inversion E.
      - destruct (til !! id) as [f|] eqn:Ef, (li !! id) as [l|] eqn:El;
          simpl in E; inversion E; subst; clear E; rewrite ?app_nil_r; try done.
        destruct Hn. by split. }
    destruct (decide (unused id)); simpl.
    + by rewrite <- app_assoc.
    + by rewrite app_nil_r.
Qed.

Lemma preProcessing_Some (w : Writer) (p : idData) (w' : Writer) :
  preProcessing Min Max til li w = Some (p, w') →
  idToTrice p = til ∧ idToLocRef p = li ∧ idCount p = Z.of_nat (size til) ∧
  IDSpace p = filter unused (seqZ Min (Max - Min + 1)).
Proof.
  unfold preProcessing. case_match; [done|]. intros [= <- <-]. simpl.
  by rewrite idSpace_fold.
Qed.

(** preProcessing gives a result unless the range is turned over. *)
Lemma preProcessing_total (w : Writer) :
  Min ≤ Max + 1 → is_Some (preProcessing Min Max til li w).
Proof.
  intros Hr. unfold preProcessing.
  destruct (Z.ltb_spec (Max - Min + 1) 0); [lia | by eexists].
Qed.

(** What is in IDSpace after preProcessing. *)
Lemma preProcessing_IDSpace_elem (w : Writer) (p : idData) (w' : Writer) (id : Z) :
  preProcessing Min Max til li w = Some (p, w') →
  id ∈ IDSpace p ↔ Min ≤ id ≤ Max ∧ til !! id = None ∧ li !! id = None.
Proof.
  intros (_ & _ & _ & ->)%preProcessing_Some.
  rewrite list_elem_of_filter, elem_of_seqZ. unfold unused.
  split; [intros [[? ?] ?] | intros [? [? ?]]]; repeat split; auto; lia.
Qed.

Lemma seqZ_sorted (m n : Z) : StronglySorted Z.lt (seqZ m n).
Proof.
  unfold seqZ. generalize (Z.to_nat n) as k. intros k.
  generalize 0%nat as b. induction k as [|k IH]; intros b; simpl.
  - constructor.
  - constructor; [apply IH|].
    apply Forall_fmap, Forall_forall. intros x Hx.
    apply elem_of_seq in Hx. simpl. lia.
Qed.

End IDSpaceFacts.

Lemma StronglySorted_filter_lt (P : Z → Prop) `{∀ x, Decision (P x)} (l : list Z) :
  StronglySorted Z.lt l → StronglySorted Z.lt (filter P l).
Proof.
  induction 1 as [|x l Hs IH Hx]; [constructor|].
  rewrite filter_cons. destruct (decide (P x)); [|done].
  constructor; [done|].
  apply Forall_forall. intros y [_ Hy]%list_elem_of_filter.
  by eapply Forall_forall in Hx.
Qed.

(** C3: after preProcessing on the loaded tables, IDSpace holds exactly the
    IDs from Min to Max that are a key of neither idToTrice nor idToLocRef,
    in strictly ascending order and without duplicates. *)
Theorem preProcessing_IDSpace_exact (Min Max : Z) (til : gmap Z TriceFmt)
    (li : gmap Z TriceLI) (w : Writer) (p : idData) (w' : Writer) :
  preProcessing Min Max til li w = Some (p, w') →
  idToTrice p = til ∧ idToLocRef p = li ∧
  (∀ id : Z, id ∈ IDSpace p ↔
     Min ≤ id ≤ Max ∧ idToTrice p !! id = None ∧ idToLocRef p !! id = None) ∧
  StronglySorted Z.lt (IDSpace p) ∧
  NoDup (IDSpace p).
Proof.
  intros Hp.
  pose proof (preProcessing_Some _ _ _ _ _ _ _ Hp) as (Ht & Hl & _ & Hsp).
  split; [done|]. split; [done|]. split; [|split].
  - intros id. rewrite Ht, Hl. by eapply preProcessing_IDSpace_elem.
  - rewrite Hsp. apply StronglySorted_filter_lt, seqZ_sorted.
  - rewrite Hsp. apply NoDup_filter, NoDup_seqZ.
Qed.

Lemma preProcessing_IDSpace_exact_witness :
  ∃ p w, preProcessing 10 14 {[ 11 := mkTriceFmt "TRICE" "a" ]} {[ 12 := mkTriceLI "f.c" 4 ]} []
         = Some (p, w) ∧
         IDSpace p = [10; 13; 14] ∧ StronglySorted Z.lt (IDSpace p) ∧ NoDup (IDSpace p).
Proof.
  eexists _, _. split; [vm_compute; reflexivity|].
  split; [reflexivity|].
  eapply (preProcessing_IDSpace_exact 10 14 {[ 11 := mkTriceFmt "TRICE" "a" ]}
            {[ 12 := mkTriceLI "f.c" 4 ]} []).
  vm_compute. reflexivity.
Defined.

(** C4 as stated fails: with Min = 0 the ID 0 is put into IDSpace. *)
Lemma preProcessing_IDSpace_zero :
  ∃ p w, preProcessing 0 3 ∅ ∅ [] = Some (p, w) ∧
         0 ∈ IDSpace p ∧
         ¬ (∀ id : Z, id ∈ IDSpace p → 0 ≤ id ≤ 3 ∧ id ≠ 0).
Proof.
  eexists _, _. split; [vm_compute; reflexivity|].
  assert (H0 : 0 ∈ [0; 1; 2; 3]) by apply list_elem_of_here.
  split; [exact H0|]. intros Hall. by destruct (Hall 0 H0) as [_ Hne].
Qed.

(** C4, amended: every ID in the IDSpace built by preProcessing lies between
    Min and Max; 0 is in IDSpace exactly when it lies in that range and is a
    key of neither table, so with 0 < Min every ID in IDSpace differs
    from 0. *)
Theorem preProcessing_IDSpace_range (Min Max : Z) (til : gmap Z TriceFmt)
    (li : gmap Z TriceLI) (w : Writer) (p : idData) (w' : Writer) :
  preProcessing Min Max til li w = Some (p, w') →
  (∀ id : Z, id ∈ IDSpace p → Min ≤ id ≤ Max) ∧
  (0 ∈ IDSpace p ↔ Min ≤ 0 ≤ Max ∧ til !! 0 = None ∧ li !! 0 = None) ∧
  (0 < Min → ∀ id : Z, id ∈ IDSpace p → id ≠ 0).
Proof.
  intros Hp.
  pose proof (λ id, preProcessing_IDSpace_elem Min Max til li w p w' id Hp) as Hin.
  split; [|split].
  - intros id Hid. by apply Hin in Hid as [? _].
  - apply Hin.
  - intros Hmin id Hid ->. apply Hin in Hid as [? _]. lia.
Qed.

Lemma preProcessing_IDSpace_range_witness :
  ∃ p w, preProcessing 10 14 ∅ ∅ [] = Some (p, w) ∧
         14 ∈ IDSpace p ∧ 10 ≤ 14 ≤ 14 ∧ 14 ≠ 0.
Proof.
  eexists _, _. split; [vm_compute; reflexivity|].
  assert (H14 : 14 ∈ [10; 11; 12; 13; 14]) by (repeat constructor).
  split; [exact H14|].
  destruct (preProcessing_IDSpace_range 10 14 ∅ ∅ [] _ _ eq_refl) as (Hr & _ & Hz).
  split; [by apply Hr | apply Hz; [lia | exact H14]].
Defined.

Example preProcessing_run :
  preProcessing 10 14 {[ 11 := mkTriceFmt "TRICE" "a"; 13 := mkTriceFmt "TRICE" "b" ]}
                      {[ 11 := mkTriceLI "f.c" 3; 12 := mkTriceLI "f.c" 4 ]} []
  = Some (mkIdData {[ 11 := mkTriceFmt "TRICE" "a"; 13 := mkTriceFmt "TRICE" "b" ]}
                   {[ mkTriceFmt "TRICE" "a" := [11]; mkTriceFmt "TRICE" "b" := [13] ]}
                   {[ 11 := mkTriceLI "f.c" 3; 12 := mkTriceLI "f.c" 4 ]}
                   ∅ 2 [10; 14],
          ["ID 12 only inside li.json"; "ID 13 only inside til.json"]).
Proof. vm_compute. reflexivity. Qed.

(** A range that is turned over by more than one makes [make] panic. *)
Example preProcessing_panic : preProcessing 10 8 ∅ ∅ [] = None.
Proof. reflexivity. Qed.

(** ** postProcessing: which files are written *)

Section PostProcessingFacts.

Variables FnJSON LIFnJSON : string.
Variables DryRun Verbose : bool.
Variables (p : idData) (w : Writer) (fSys : Afero).

Abbreviation grown := (grown p).
Abbreviation tilWriteFails := (tilWriteFails FnJSON DryRun p fSys).
Abbreviation liDisabled := (liDisabled LIFnJSON).
Abbreviation newCalls := (newCalls fSys).
Abbreviation tilCall := (FnJSON, TilContent (idToTrice p)).
Abbreviation liCall := (LIFnJSON, LiContent (idToLocNew p)).

Lemma liDisabled_eqb :
  String.eqb LIFnJSON "off" || String.eqb LIFnJSON "none" = bool_decide liDisabled.
Proof.
  unfold liDisabled.
  destruct (String.eqb_spec LIFnJSON "off"), (String.eqb_spec LIFnJSON "none");
    simpl; symmetry;
    first [ apply bool_decide_eq_true; tauto
          | apply bool_decide_eq_false; tauto ].
Qed.

(** The calls of a run, case by case. *)
Lemma postProcessing_calls :
  newCalls (postProcessing FnJSON LIFnJSON DryRun Verbose p w fSys)
  = (if bool_decide (grown ∧ DryRun = false) then [tilCall] else [])
    ++ (if bool_decide tilWriteFails then []
        else if bool_decide liDisabled then [] else [liCall]).
Proof.
  unfold newCalls, postProcessing, writeLI, FatalOnErr, FatalInfoOnErr.
  rewrite liDisabled_eqb.
  assert (Hg : (0 <? Z.of_nat (size (idToTrice p)) - idCount p) = bool_decide grown).
  { unfold grown.
    destruct (Z.ltb_spec 0 (Z.of_nat (size (idToTrice p)) - idCount p));
      symmetry; [apply bool_decide_eq_true | apply bool_decide_eq_false]; lia. }
  rewrite Hg. unfold tilWriteFails, toFile. rewrite !bool_decide_and.
  destruct (bool_decide grown), DryRun,
           (bool_decide (FnJSON ∈ unwritable fSys)),
           (bool_decide liDisabled); simpl;
    try destruct (bool_decide (LIFnJSON ∈ unwritable fSys)); simpl;
    by rewrite <- ?app_assoc, ?drop_all, ?drop_app_length.
Qed.

End PostProcessingFacts.

(** A failed write of the format table ends the run at once. *)
Lemma postProcessing_fatal FnJSON LIFnJSON DryRun Verbose p w fSys :
  tilWriteFails FnJSON DryRun p fSys →
  exited (postProcessing FnJSON LIFnJSON DryRun Verbose p w fSys) = true.
Proof.
  intros (G & -> & U). unfold postProcessing, FatalOnErr, FatalInfoOnErr, toFile.
  unfold grown in G.
  destruct (Z.ltb_spec 0 (Z.of_nat (size (idToTrice p)) - idCount p)); [|lia].
  simpl. by rewrite (bool_decide_eq_true_2 _ U).
Qed.

(** C5 as stated fails: the format table grew, its write is refused, and
    the location file is not written although it is not switched off. *)
Lemma postProcessing_li_not_written :
  let p := mkIdData {[ 11 := mkTriceFmt "TRICE" "a" ]} ∅ ∅ {[ 11 := mkTriceLI "f.c" 3 ]} 0 [] in
  let fSys := mkAfero ∅ {[ "til.json" ]} [] in
  let o := postProcessing "til.json" "li.json" false false p [] fSys in
  ¬ (("li.json", LiContent (idToLocNew p)) ∈ newCalls fSys o
     ↔ "li.json" ≠ "off" ∧ "li.json" ≠ "none").
Proof.
  intros p fSys o [_ Hw].
  assert (Hc : newCalls fSys o = [("til.json", TilContent (idToTrice p))]).
  { vm_compute. reflexivity. }
  rewrite Hc in Hw.
  assert (Hin : ("li.json", LiContent (idToLocNew p))
                ∈ [("til.json", TilContent (idToTrice p))]).
  { apply Hw. split; discriminate. }
  apply list_elem_of_singleton in Hin. discriminate Hin.
Qed.

(** C5, amended: postProcessing writes the format table file exactly when
    the table has more entries than at load time and DryRun is false; it
    writes the location file exactly when LIFnJSON is neither "off" nor
    "none" and the run was not ended by a refused write of the format table,
    whatever DryRun is. *)
Theorem postProcessing_writes FnJSON LIFnJSON DryRun Verbose p w fSys :
  let o := postProcessing FnJSON LIFnJSON DryRun Verbose p w fSys in
  ((FnJSON, TilContent (idToTrice p)) ∈ newCalls fSys o
   ↔ idCount p < Z.of_nat (size (idToTrice p)) ∧ DryRun = false) ∧
  ((LIFnJSON, LiContent (idToLocNew p)) ∈ newCalls fSys o
   ↔ (LIFnJSON ≠ "off" ∧ LIFnJSON ≠ "none") ∧ ¬ tilWriteFails FnJSON DryRun p fSys).
Proof.
  intros o. subst o. rewrite postProcessing_calls.
  split.
  - rewrite elem_of_app. split.
    + intros [Ht|Hl].
      * case_bool_decide as Hc; [exact Hc | by apply elem_of_nil in Ht].
      * repeat case_bool_decide; try (by apply elem_of_nil in Hl).
        apply list_elem_of_singleton in Hl. discriminate Hl.
    + intros Hc. left. rewrite bool_decide_eq_true_2 by exact Hc.
      apply list_elem_of_here.
  - rewrite elem_of_app. split.
    + intros [Ht|Hl].
      * case_bool_decide; [|by apply elem_of_nil in Ht].
        apply list_elem_of_singleton in Ht. discriminate Ht.
      * case_bool_decide as Hf; [by apply elem_of_nil in Hl|].
        case_bool_decide as Hd; [by apply elem_of_nil in Hl|].
        split; [|exact Hf]. unfold liDisabled in Hd. tauto.
    + intros [[Hoff Hnone] Hf]. right.
      rewrite (bool_decide_eq_false_2 _ Hf).
      rewrite bool_decide_eq_false_2; [apply list_elem_of_here|].
      unfold liDisabled. tauto.
Qed.

Example postProcessing_run :
  calls (outFS (postProcessing "til.json" "li.json" false false
     (mkIdData {[ 11 := mkTriceFmt "TRICE" "a" ]} ∅ ∅ {[ 11 := mkTriceLI "f.c" 3 ]} 0 [])
     [] (mkAfero ∅ ∅ [])))
  = [("til.json", TilContent {[ 11 := mkTriceFmt "TRICE" "a" ]});
     ("li.json", LiContent {[ 11 := mkTriceLI "f.c" 3 ]})].
Proof. vm_compute. reflexivity. Qed.

Example postProcessing_dry_run :
  calls (outFS (postProcessing "til.json" "li.json" true false
     (mkIdData {[ 11 := mkTriceFmt "TRICE" "a" ]} ∅ ∅ {[ 11 := mkTriceLI "f.c" 3 ]} 0 [])
     [] (mkAfero ∅ ∅ [])))
  = [("li.json", LiContent {[ 11 := mkTriceLI "f.c" 3 ]})].
Proof. vm_compute. reflexivity. Qed.

(** ** The walk: IDs for call sites and collisions *)

(** The reversed table lists under a format the IDs that the table has for
    it, each once. *)
Lemma reverse_fold (L : list (Z * TriceFmt)) (f : TriceFmt) (ids : list Z) :
  NoDup L.*1 →
  foldr (λ (e : Z * TriceFmt) (r : gmap TriceFmt (list Z)),
           <[e.2 := e.1 :: default [] (r !! e.2)]> r) ∅ L !! f = Some ids →
  NoDup ids ∧ ∀ id, id ∈ ids → (id, f) ∈ L.
Proof.
  revert f ids. induction L as [|[id0 f0] L IH]; intros f ids Hnd; simpl.
  - by rewrite lookup_empty.
  - apply NoDup_cons in Hnd as [Hid0 Hnd]. simpl in Hid0.
    destruct (decide (f = f0)) as [->|Hf].
    + rewrite lookup_insert_eq. intros [= <-].
      destruct (foldr _ ∅ L !! f0) as [ids0|] eqn:E; simpl.
      * destruct (IH _ _ Hnd E) as [Hn Hin]. split.
        -- apply NoDup_cons. split; [|done]. intros Hx%Hin.
           apply Hid0. apply list_elem_of_fmap. by exists (id0, f0).
        -- intros id [->|Hx%Hin]%elem_of_cons; [left | by right].
      * split; [apply NoDup_singleton|].
        intros id ->%list_elem_of_singleton. left.
    + rewrite lookup_insert_ne by done. intros E.
      destruct (IH _ _ Hnd E) as [Hn Hin]. split; [done|].
      intros id Hx%Hin. by right.
Qed.

Lemma reverseS_spec (m : gmap Z TriceFmt) (f : TriceFmt) (ids : list Z) :
  reverseS m !! f = Some ids →
  NoDup ids ∧ ∀ id, id ∈ ids → m !! id = Some f.
Proof.
  unfold reverseS. intros E.
  pose proof (merge_sort_Permutation entry_le (map_to_list m)) as HP.
  apply reverse_fold in E as [Hn Hin].
  - split; [done|]. intros id Hx%Hin.
    apply elem_of_map_to_list. by rewrite <- HP.
  - rewrite HP. apply NoDup_fst_map_to_list.
Qed.

Section WalkFacts.

Variables (Min Max : Z) (DryRun : bool).

Abbreviation visitSite := (visitSite Min Max DryRun).
Abbreviation walk := (walk Min Max DryRun).

(** preProcessing sets the registry up consistently. *)
Lemma preProcessing_consistent til li w p w' :
  preProcessing Min Max til li w = Some (p, w') → consistent p.
Proof.
  intros Hp. pose proof Hp as (Ht & _ & _ & Hsp)%preProcessing_Some.
  assert (Hr : triceToId p = reverseS til).
  { unfold preProcessing in Hp. case_match; [done|]. by injection Hp as <- _. }
  split; [|split].
  - rewrite Hsp. apply StronglySorted_filter_lt, seqZ_sorted.
  - intros id Hid. rewrite Ht.
    by apply (preProcessing_IDSpace_elem _ _ _ _ _ _ _ _ Hp) in Hid as (_ & ? & _).
  - intros f ids. rewrite Hr, Ht. apply reverseS_spec.
Qed.

(** Unfolding one step of the walk. *)
Lemma walk_cons p c rest r :
  walk p (c :: rest) = Some r →
  ∃ v r', visitSite p c = Some v ∧ walk (vData v) rest = Some r' ∧
          r = mkWalk (wData r') (vID v :: wIDs r') (vEvents v ++ wEvents r').
Proof.
  simpl. intros Hw.
  destruct (visitSite p c) as [v|] eqn:Hv; simpl in Hw; [|done].
  destruct (walk (vData v) rest) as [r'|] eqn:Hr; simpl in Hw; [|done].
  inversion Hw. by exists v, r'.
Qed.

Lemma walk_length p sites r :
  walk p sites = Some r → length (wIDs r) = length sites.
Proof.
  revert p r. induction sites as [|c rest IH]; intros p r Hw.
  - by inversion Hw.
  - apply walk_cons in Hw as (v & r' & _ & Hr & ->). simpl. f_equal. eauto.
Qed.

(** The cases of a visit. *)
Lemma visitSite_cases p c v :
  visitSite p c = Some v →
  (siteID c = 0 ∧ ∃ id ids,
     triceToId p !! siteFmt c = Some (id :: ids) ∧ vID v = Some id ∧ vEvents v = [] ∧
     vData v = mkIdData (idToTrice p) (<[siteFmt c := ids]> (triceToId p))
                        (idToLocRef p) (idToLocNew p) (idCount p) (IDSpace p)) ∨
  (siteID c = 0 ∧ ∃ newID rest,
     IDSpace p = newID :: rest ∧ vID v = Some newID ∧
     vEvents v = (if DryRun then [] else [Rewritten (siteLoc c) newID]) ∧
     vData v = mkIdData (<[newID := siteFmt c]> (idToTrice p)) (triceToId p)
                        (idToLocRef p) (idToLocNew p) (idCount p) rest) ∨
  (siteID c ≠ 0 ∧ idToTrice p !! siteID c = None ∧ vID v = Some (siteID c) ∧
     vEvents v = [] ∧
     vData v = mkIdData (<[siteID c := siteFmt c]> (idToTrice p)) (triceToId p)
                        (idToLocRef p) (<[siteID c := siteLoc c]> (idToLocNew p))
                        (idCount p) (filter (λ id, id ≠ siteID c) (IDSpace p))) ∨
  (siteID c ≠ 0 ∧ ∃ f, idToTrice p !! siteID c = Some f ∧ vID v = Some (siteID c) ∧
     vEvents v = (if bool_decide (f = siteFmt c) then []
                  else [Mismatch (siteLoc c) (siteID c) f (siteFmt c)]) ∧
     idToTrice (vData v) = idToTrice p ∧ triceToId (vData v) = triceToId p ∧
     IDSpace (vData v) = IDSpace p) ∨
  (siteID c ≠ 0 ∧ vID v = None ∧ vData v = p).
Proof.
  unfold visitSite, takeID. intros Hv.
  case_bool_decide as Hz.
  - destruct (triceToId p !! siteFmt c) as [[|id ids]|] eqn:Hr.
    + destruct (IDSpace p) as [|newID rest] eqn:Hs; simplify_eq.
      right. left. split; [done|]. by exists newID, rest.
    + simplify_eq. left. split; [done|]. by exists id, ids.
    + destruct (IDSpace p) as [|newID rest] eqn:Hs; simplify_eq.
      right. left. split; [done|]. by exists newID, rest.
  - case_bool_decide.
    + destruct (idToTrice p !! siteID c) as [f|] eqn:Hl; simplify_eq.
      * do 3 right. left. split; [done|]. by exists f.
      * do 2 right. left. done.
    + simplify_eq. do 4 right. done.
Qed.

(** Removing one ID from an ascending list. *)
Lemma filter_ne_sorted (k : Z) (l : list Z) :
  StronglySorted Z.lt l →
  (length l ≤ S (length (filter (λ id, id ≠ k) l)))%nat.
Proof.
  induction 1 as [|x l Hs IH Hx]; [simpl; lia|].
  rewrite filter_cons. destruct (decide (x ≠ k)) as [Hne|Heq]; simpl; [lia|].
  assert (x = k) as -> by (destruct (decide (x = k)); [done | by destruct Heq]).
  assert (Hall : filter (λ id, id ≠ k) l = l).
  { clear IH Hs. induction l as [|y l IHl]; [done|].
    apply Forall_cons in Hx as [Hy Hx]. rewrite filter_cons.
    destruct (decide (y ≠ k)); [by rewrite IHl | lia]. }
  rewrite Hall. lia.
Qed.

(** Every visit keeps the registry consistent. *)
Lemma visitSite_consistent p c v :
  consistent p → visitSite p c = Some v → consistent (vData v).
Proof.
  intros (Hs & Hsp & Hrev) Hv.
  destruct (visitSite_cases _ _ _ Hv)
    as [(_ & id & ids & Hr & _ & _ & ->)
       |[(_ & newID & rest & Hi & _ & _ & ->)
        |[(_ & Hl & _ & _ & ->)
         |[(_ & f & _ & _ & _ & Ht & Hrv & Hi)
          |(_ & _ & ->)]]]]; [| | | |done].
  - split; [done|]. split; [done|]. simpl. intros f' ids'.
    destruct (decide (f' = siteFmt c)) as [->|Hf].
    + rewrite lookup_insert_eq. intros [= <-].
      destruct (Hrev _ _ Hr) as [Hn Hin]. apply NoDup_cons in Hn as [_ Hn].
      split; [done|]. intros x Hx. apply Hin. by right.
    + rewrite lookup_insert_ne by done. apply Hrev.
  - rewrite Hi in Hs, Hsp. apply StronglySorted_inv in Hs as [Hs Hlt].
    assert (Hnew : idToTrice p !! newID = None) by (apply Hsp; left).
    split; [done|]. split; simpl.
    + intros id Hid. rewrite lookup_insert_ne.
      * apply Hsp. by right.
      * intros <-. eapply Forall_forall in Hlt; [|done]. lia.
    + intros f' ids' Hr. destruct (Hrev _ _ Hr) as [Hn Hin]. split; [done|].
      intros x Hx. rewrite lookup_insert_ne; [by apply Hin|].
      intros <-. apply Hin in Hx. congruence.
  - split; [by apply StronglySorted_filter_lt|]. split; simpl.
    + intros id [Hne Hid]%list_elem_of_filter.
      rewrite lookup_insert_ne by done. by apply Hsp.
    + intros f' ids' Hr. destruct (Hrev _ _ Hr) as [Hn Hin]. split; [done|].
      intros x Hx. rewrite lookup_insert_ne; [by apply Hin|].
      intros <-. apply Hin in Hx. congruence.
  - unfold consistent. by rewrite Ht, Hrv, Hi.
Qed.

(** No visit overwrites an entry of the format table. *)
Lemma visitSite_entry_kept p c v k f :
  consistent p → visitSite p c = Some v →
  idToTrice p !! k = Some f → idToTrice (vData v) !! k = Some f.
Proof.
  intros (Hs & Hsp & Hrev) Hv Hk.
  destruct (visitSite_cases _ _ _ Hv)
    as [(_ & id & ids & Hr & _ & _ & ->)
       |[(_ & newID & rest & Hi & _ & _ & ->)
        |[(_ & Hl & _ & _ & ->)
         |[(_ & f' & _ & _ & _ & Ht & _ & _)
          |(_ & _ & ->)]]]]; simpl; try done.
  - rewrite lookup_insert_ne; [done|]. intros <-.
    rewrite Hsp in Hk; [done|]. rewrite Hi. left.
  - rewrite lookup_insert_ne; [done|]. intros <-. congruence.
  - by rewrite Ht.
Qed.

Lemma walk_consistent p sites r :
  consistent p → walk p sites = Some r → consistent (wData r).
Proof.
  revert p r. induction sites as [|c rest IH]; intros p r Hc Hw.
  - simpl in Hw. by simplify_eq.
  - apply walk_cons in Hw as (v & r' & Hv & Hw' & ->). simpl.
    eauto using visitSite_consistent.
Qed.

Lemma walk_entry_kept p sites r k f :
  consistent p → walk p sites = Some r →
  idToTrice p !! k = Some f → idToTrice (wData r) !! k = Some f.
Proof.
  revert p r. induction sites as [|c rest IH]; intros p r Hc Hw Hk.
  - simpl in Hw. by simplify_eq.
  - apply walk_cons in Hw as (v & r' & Hv & Hw' & ->). simpl.
    eauto using visitSite_consistent, visitSite_entry_kept.
Qed.

(** The site that resolves to an ID finds its entry or makes it: afterwards
    the table has for the ID the pair it had, or else the pair of the
    site. *)
Lemma visitSite_resolved p c v k :
  consistent p → visitSite p c = Some v → vID v = Some k →
  idToTrice (vData v) !! k = Some (default (siteFmt c) (idToTrice p !! k)).
Proof.
  intros (Hs & Hsp & Hrev) Hv Hk.
  destruct (visitSite_cases _ _ _ Hv)
    as [(_ & id & ids & Hr & Hid & _ & ->)
       |[(_ & newID & rest & Hi & Hid & _ & ->)
        |[(_ & Hl & Hid & _ & ->)
         |[(_ & f' & Hl & Hid & _ & Ht & _ & _)
          |(_ & Hid & ->)]]]]; simpl; rewrite Hid in Hk; simplify_eq.
  - destruct (Hrev _ _ Hr) as [_ Hin]. rewrite (Hin k) by left. done.
  - rewrite (Hsp k) by (rewrite Hi; left). simpl. apply lookup_insert_eq.
  - rewrite Hl. simpl. apply lookup_insert_eq.
  - rewrite Ht, Hl. done.
Qed.

(** A site that resolves to an ID for which the table has another pair is
    reported. *)
Lemma visitSite_mismatch p c v k f :
  consistent p → visitSite p c = Some v → vID v = Some k →
  idToTrice p !! k = Some f → siteFmt c ≠ f →
  Mismatch (siteLoc c) k f (siteFmt c) ∈ vEvents v.
Proof.
  intros (Hs & Hsp & Hrev) Hv Hk Hf Hne.
  destruct (visitSite_cases _ _ _ Hv)
    as [(_ & id & ids & Hr & Hid & _ & _)
       |[(_ & newID & rest & Hi & Hid & _ & _)
        |[(_ & Hl & Hid & _ & _)
         |[(_ & f' & Hl & Hid & He & _ & _ & _)
          |(_ & Hid & _)]]]]; rewrite Hid in Hk; simplify_eq.
  - destruct (Hrev _ _ Hr) as [_ Hin]. rewrite (Hin k) in Hf by left. congruence.
  - rewrite (Hsp k) in Hf by (rewrite Hi; left). done.
  - rewrite He. rewrite bool_decide_eq_false_2 by congruence. left.
Qed.

(** The entry of an ID changes only at a site that resolves to it. *)
Lemma visitSite_other p c v k :
  visitSite p c = Some v → vID v ≠ Some k →
  idToTrice (vData v) !! k = idToTrice p !! k.
Proof.
  intros Hv Hk.
  destruct (visitSite_cases _ _ _ Hv)
    as [(_ & id & ids & Hr & Hid & _ & ->)
       |[(_ & newID & rest & Hi & Hid & _ & ->)
        |[(_ & Hl & Hid & _ & ->)
         |[(_ & f' & Hl & Hid & _ & Ht & _ & _)
          |(_ & Hid & ->)]]]]; simpl; try done.
  - rewrite lookup_insert_ne; [done|]. intros <-. by rewrite Hid in Hk.
  - rewrite lookup_insert_ne; [done|]. intros <-. by rewrite Hid in Hk.
  - by rewrite Ht.
Qed.

Lemma walk_mismatch p sites r k f j B :
  consistent p → walk p sites = Some r →
  idToTrice p !! k = Some f →
  sites !! j = Some B → wIDs r !! j = Some (Some k) → siteFmt B ≠ f →
  Mismatch (siteLoc B) k f (siteFmt B) ∈ wEvents r.
Proof.
  revert p r j. induction sites as [|c rest IH]; intros p r j Hc Hw Hk HB Hj Hf.
  - by rewrite lookup_nil in HB.
  - apply walk_cons in Hw as (v & r' & Hv & Hw' & ->). simpl in *.
    apply elem_of_app. destruct j as [|j]; simpl in *.
    + left. injection HB as ->. injection Hj as Hj.
      exact (visitSite_mismatch _ _ _ _ _ Hc Hv Hj Hk Hf).
    + right. apply (IH (vData v) r' j); try done.
      * by eapply visitSite_consistent.
      * by eapply visitSite_entry_kept.
Qed.

(** A call site that carries an ID of the range resolves to it. *)
Lemma walk_own_ID p sites r j B :
  walk p sites = Some r → sites !! j = Some B →
  siteID B ≠ 0 → Min ≤ siteID B ≤ Max →
  wIDs r !! j = Some (Some (siteID B)).
Proof.
  revert p r j. induction sites as [|c rest IH]; intros p r j Hw HB Hz Hr.
  - by rewrite lookup_nil in HB.
  - apply walk_cons in Hw as (v & r' & Hv & Hw' & ->). simpl in *.
    destruct j as [|j]; simpl in *; [|by eapply IH].
    simplify_eq. f_equal. unfold visitSite in Hv.
    rewrite bool_decide_eq_false_2 in Hv by done.
    rewrite bool_decide_eq_true_2 in Hv by done.
    destruct (idToTrice p !! siteID B); by simplify_eq.
Qed.

(** The first site that resolves to an ID decides its entry, unless the
    table had one before. *)
Lemma walk_first p sites r k i A :
  consistent p → walk p sites = Some r →
  sites !! i = Some A → wIDs r !! i = Some (Some k) →
  (∀ j, (j < i)%nat → wIDs r !! j ≠ Some (Some k)) →
  idToTrice (wData r) !! k = Some (default (siteFmt A) (idToTrice p !! k)) ∧
  ∀ j B, sites !! j = Some B → wIDs r !! j = Some (Some k) →
         siteFmt B ≠ default (siteFmt A) (idToTrice p !! k) →
         Mismatch (siteLoc B) k (default (siteFmt A) (idToTrice p !! k)) (siteFmt B)
         ∈ wEvents r.
Proof.
  revert p r i. induction sites as [|c rest IH]; intros p r i Hc Hw HA Hi Hfirst.
  - by rewrite lookup_nil in HA.
  - apply walk_cons in Hw as (v & r' & Hv & Hw' & ->). simpl in *.
    pose proof (visitSite_consistent _ _ _ Hc Hv) as Hc'.
    destruct i as [|i]; simpl in *.
    + injection HA as ->. injection Hi as Hi.
      pose proof (visitSite_resolved _ _ _ _ Hc Hv Hi) as Hk.
      split; [by eapply walk_entry_kept|].
      intros j B HB Hj Hf. apply elem_of_app. destruct j as [|j]; simpl in *.
      * left. simplify_eq.
        destruct (idToTrice p !! k) as [f|] eqn:Hl; simpl in *; [|done].
        exact (visitSite_mismatch _ _ _ _ _ Hc Hv Hi Hl Hf).
      * right. exact (walk_mismatch _ _ _ _ _ _ _ Hc' Hw' Hk HB Hj Hf).
    + assert (Hv0 : vID v ≠ Some k).
      { intros Heq. apply (Hfirst 0%nat); [lia|]. simpl. by rewrite Heq. }
      rewrite <- (visitSite_other _ _ _ _ Hv Hv0).
      destruct (IH _ _ _ Hc' Hw' HA Hi) as [Ht Hm].
      { intros j Hj. apply (Hfirst (S j)). lia. }
      split; [done|].
      intros j B HB Hj Hf. apply elem_of_app. destruct j as [|j]; simpl in *.
      * simplify_eq.
      * right. by eapply Hm.
Qed.







(** The walk gives a result when IDSpace has an ID for every call site. *)
Lemma walk_total p sites :
  consistent p → (length sites ≤ length (IDSpace p))%nat →
  is_Some (walk p sites).
Proof.
  revert p. induction sites as [|c rest IH]; intros p Hc Hn; [by eexists|].
  simpl in Hn.
  assert (Hv : ∃ v, visitSite p c = Some v ∧
            (length (IDSpace p) ≤ S (length (IDSpace (vData v))))%nat).
  { unfold visitSite, takeID. case_bool_decide.
    - destruct (triceToId p !! siteFmt c) as [[|id ids]|].
      + destruct (IDSpace p) as [|newID sp]; simpl in *; [lia|].
        eexists. split; [done|]. simpl. lia.
      + eexists. split; [done|]. simpl. lia.
      + destruct (IDSpace p) as [|newID sp]; simpl in *; [lia|].
        eexists. split; [done|]. simpl. lia.
    - case_bool_decide; [|eexists; split; [done|]; simpl; lia].
      destruct (idToTrice p !! siteID c).
      + eexists. split; [done|]. simpl. lia.
      + eexists. split; [done|]. simpl. apply filter_ne_sorted, Hc. }
  destruct Hv as (v & Hv & Hn'). simpl. rewrite Hv. simpl.
  destruct (IH (vData v)) as [r' ->]; [by eapply visitSite_consistent | lia |].
  by eexists.
Qed.

End WalkFacts.

(** The model on the table of the test TestInsertSharedIDs0WithParamCount:
    the nine call sites get the IDs from 10000 to 10008 in their order, each
    is rewritten, and the format table is the list that the test expects. *)
Example walk_test_table :
  (λ x, (wIDs x.1, idToTrice (wData x.1), wEvents x.1))
    <$> cmdManageTriceIDs 10000 10099 "til.json" "li.json" false false ∅ ∅ testSites []
                          (mkAfero ∅ ∅ [])
  = Some (Some <$> [10000; 10001; 10002; 10003; 10004; 10005; 10006; 10007; 10008],
          list_to_map testExpected,
          zip_with Rewritten (siteLoc <$> testSites) testExpected.*1).
Proof. vm_compute. reflexivity. Qed.




(** C2 as stated fails: the loaded format table has an entry for the ID,
    two call sites carry the ID with other pairs, and the table keeps the
    loaded entry, not the pair of the first call site. *)
Lemma walk_loaded_entry_kept :
  let loaded := mkTriceFmt "TRICE16_3" "loaded %2d, %13u, %64b" in
  let first := mkCallSite 12345 (mkTriceFmt "TRICE16_3" "hi %2d, %13u, %64b") (mkTriceLI "a.c" 2) in
  let second := mkCallSite 12345 (mkTriceFmt "TRICE16_3" "DIFFERENT! %2d, %13u, %64b") (mkTriceLI "a.c" 3) in
  ∃ p w r,
    preProcessing 12340 12349 {[ 12345 := loaded ]} ∅ [] = Some (p, w) ∧
    walk 12340 12349 false p [first; second] = Some r ∧
    siteFmt first ≠ siteFmt second ∧
    idToTrice (wData r) !! 12345 ≠ Some (siteFmt first).
Proof.
  intros loaded first second.
  eexists _, _, _. split; [vm_compute; reflexivity|].
  split; [vm_compute; reflexivity|].
  split; [discriminate|]. vm_compute. discriminate.
Qed.

(** C2, amended: let A be the first call site in walk order at which the
    ID k appears, that is, which carries k or is given k in this pass.
    After the pass the format table has for k the pair that the loaded
    format table had for it, or, if it had none, exactly the pair of A;
    no later call site replaces it, and every call site at which k appears
    with another pair is reported as a mismatch.  A call site that carries
    an ID other than 0 from Min to Max is one at which this ID appears. *)
Theorem walk_first_pair_kept Min Max DryRun til li w p w1 sites r k i A :
  preProcessing Min Max til li w = Some (p, w1) →
  walk Min Max DryRun p sites = Some r →
  sites !! i = Some A → wIDs r !! i = Some (Some k) →
  (∀ j, (j < i)%nat → wIDs r !! j ≠ Some (Some k)) →
  let kept := default (siteFmt A) (til !! k) in
  idToTrice (wData r) !! k = Some kept ∧
  (∀ j B, sites !! j = Some B → wIDs r !! j = Some (Some k) → siteFmt B ≠ kept →
          Mismatch (siteLoc B) k kept (siteFmt B) ∈ wEvents r) ∧
  (∀ j B, sites !! j = Some B → siteID B = k → k ≠ 0 → Min ≤ k ≤ Max →
          wIDs r !! j = Some (Some k)).
Proof.
  intros Hp Hw HA Hi Hfirst kept.
  pose proof (preProcessing_consistent _ _ _ _ _ _ _ Hp) as Hc.
  pose proof Hp as (Ht & _)%preProcessing_Some.
  destruct (walk_first _ _ _ _ _ _ _ _ _ Hc Hw HA Hi Hfirst) as [Hk Hm].
  rewrite Ht in Hk, Hm. split; [exact Hk|]. split; [exact Hm|].
  intros j B HB <- Hz Hr.
  by eapply walk_own_ID.
Qed.

Lemma walk_first_pair_kept_witness :
  let first := mkCallSite 12345 (mkTriceFmt "TRICE16_3" "hi %2d, %13u, %64b") (mkTriceLI "a.c" 2) in
  let second := mkCallSite 12345 (mkTriceFmt "TRICE16_3" "DIFFERENT! %2d, %13u, %64b") (mkTriceLI "a.c" 3) in
  ∃ p w r,
    preProcessing 12340 12349 ∅ ∅ [] = Some (p, w) ∧
    walk 12340 12349 false p [first; second] = Some r ∧
    idToTrice (wData r) !! 12345 = Some (siteFmt first) ∧
    Mismatch (siteLoc second) 12345 (siteFmt first) (siteFmt second) ∈ wEvents r.
Proof.
  intros first second.
  destruct (preProcessing 12340 12349 ∅ ∅ []) as [[p w]|] eqn:Hp;
    [|by vm_compute in Hp].
  destruct (walk_total 12340 12349 false p [first; second]) as [r Hr].
  { by eapply preProcessing_consistent. }
  { vm_compute in Hp. injection Hp as <- _. vm_compute. lia. }
  assert (H0 : wIDs r !! 0%nat = Some (Some 12345)).
  { by apply (walk_own_ID 12340 12349 false p [first; second] r 0 first Hr). }
  assert (H1 : wIDs r !! 1%nat = Some (Some 12345)).
  { by apply (walk_own_ID 12340 12349 false p [first; second] r 1 second Hr). }
  destruct (walk_first_pair_kept 12340 12349 false ∅ ∅ [] p w [first; second] r
              12345 0 first Hp Hr eq_refl H0)
    as (Ht & Hm & _); [intros j Hj; lia|].
  exists p, w, r. split; [reflexivity|]. split; [exact Hr|]. split; [exact Ht|].
  apply (Hm 1%nat second); [reflexivity | exact H1 | discriminate].
Defined.

(** A call site that brings its own ID takes it out of IDSpace: the next
    call site without ID gets the ID after it. *)
Example walk_own_ID_not_allocated :
  let first := mkCallSite 10 (mkTriceFmt "TRICE" "one") (mkTriceLI "a.c" 2) in
  let fresh := mkCallSite 0 (mkTriceFmt "TRICE" "two") (mkTriceLI "a.c" 3) in
  (λ x, (wIDs x.1, idToTrice (wData x.1)))
    <$> cmdManageTriceIDs 10 12 "til.json" "li.json" false false ∅ ∅ [first; fresh] []
                          (mkAfero ∅ ∅ [])
  = Some ([Some 10; Some 11], {[ 10 := siteFmt first; 11 := siteFmt fresh ]}).
Proof. vm_compute. reflexivity. Qed.

(** An ID that the loaded format table has for a pair is given once to a
    call site without ID that has this pair; the next one gets a new ID. *)
Example walk_loaded_ID_once :
  let f := mkTriceFmt "TRICE" "one" in
  let s1 := mkCallSite 0 f (mkTriceLI "a.c" 2) in
  let s2 := mkCallSite 0 f (mkTriceLI "a.c" 3) in
  (λ x, (wIDs x.1, idToTrice (wData x.1)))
    <$> cmdManageTriceIDs 10 12 "til.json" "li.json" false false {[ 11 := f ]} ∅ [s1; s2] []
                          (mkAfero ∅ ∅ [])
  = Some ([Some 11; Some 10], {[ 10 := f; 11 := f ]}).
Proof. vm_compute. reflexivity. Qed.

(** An ID that no loaded table has can be given to a call site without ID
    before a call site that carries it is reached: the ID then appears
    first at the call site it was given to, whose pair is kept, and the
    call site that carries it is reported. *)
Example walk_given_then_carried :
  let fresh := mkCallSite 0 (mkTriceFmt "TRICE" "two") (mkTriceLI "a.c" 2) in
  let own := mkCallSite 10 (mkTriceFmt "TRICE" "one") (mkTriceLI "a.c" 3) in
  (λ x, (wIDs x.1, idToTrice (wData x.1), wEvents x.1))
    <$> cmdManageTriceIDs 10 12 "til.json" "li.json" false false ∅ ∅ [fresh; own] []
                          (mkAfero ∅ ∅ [])
  = Some ([Some 10; Some 10], {[ 10 := siteFmt fresh ]},
          [Rewritten (siteLoc fresh) 10;
           Mismatch (siteLoc own) 10 (siteFmt fresh) (siteFmt own)]).
Proof. vm_compute. reflexivity. Qed.

(** The model on the call sites of the test TestRefreshIDListSingle2: two
    macro types that differ by case only are different pairs, and the first
    one is kept. *)
Example walk_case_run :
  let s1 := mkCallSite 12345 (mkTriceFmt "TRICE16_3" "hi %2d, %13u, %64b\n") (mkTriceLI "a.c" 2) in
  let s2 := mkCallSite 12345 (mkTriceFmt "trice16_3" "hi %2d, %13u, %64b\n") (mkTriceLI "a.c" 3) in
  let s3 := mkCallSite 12344 (mkTriceFmt "Trice16_1" "ho %64b\n") (mkTriceLI "a.c" 4) in
  (λ x, idToTrice (wData x.1))
    <$> cmdManageTriceIDs 12340 12349 "til.json" "li.json" false false ∅ ∅ [s1; s2; s3] []
                          (mkAfero ∅ ∅ [])
  = Some {[ 12344 := siteFmt s3; 12345 := siteFmt s1 ]}.
Proof. vm_compute. reflexivity. Qed.

(** The model on the call sites of the test TestRefreshIDListSingle1: only
    the first occurrence of a double used ID gets into the list. *)
Example walk_collision_run :
  let first := mkCallSite 12345 (mkTriceFmt "TRICE16_3" "hi %2d, %13u, %64b\n") (mkTriceLI "a.c" 2) in
  let second := mkCallSite 12345 (mkTriceFmt "TRICE16_3" "DIFFERENT! %2d, %13u, %64b\n") (mkTriceLI "a.c" 3) in
  (λ x, (map_to_list (idToTrice (wData x.1)), wEvents x.1))
    <$> cmdManageTriceIDs 12340 12349 "til.json" "li.json" false false ∅ ∅ [first; second] []
                          (mkAfero ∅ ∅ [])
  = Some ([(12345, siteFmt first)],
          [Mismatch (siteLoc second) 12345 (siteFmt first) (siteFmt second)]).
Proof. vm_compute. reflexivity. Qed.


(** The count taken at load time stays as it is during the walk. *)
Lemma walk_idCount Min Max DryRun p sites r :
  walk Min Max DryRun p sites = Some r → idCount (wData r) = idCount p.
Proof.
  revert p r. induction sites as [|c rest IH]; intros p r Hw.
  - simpl in Hw. by simplify_eq.
  - apply walk_cons in Hw as (v & r' & Hv & Hw' & ->). simpl.
    rewrite (IH _ _ Hw'). unfold visitSite in Hv.
    repeat case_match; by simplify_eq.
Qed.

(** One call site without ID and empty tables: the format table gets one
    entry with an ID of the range, the call site is rewritten, and both
    files are written. *)
Example cmdManageTriceIDs_run :
  let site := mkCallSite 0 (mkTriceFmt "TRICE8" "value=%d") (mkTriceLI "main.c" 7) in
  (λ x, (map_to_list (idToTrice (wData x.1)), wEvents x.1,
         fst <$> newCalls (mkAfero ∅ ∅ []) x.2))
    <$> cmdManageTriceIDs 1000 1003 "til.json" "li.json" false false ∅ ∅ [site] []
                          (mkAfero ∅ ∅ [])
  = Some ([(1000, mkTriceFmt "TRICE8" "value=%d")],
          [Rewritten (mkTriceLI "main.c" 7) 1000],
          ["til.json"; "li.json"]).
Proof. vm_compute. reflexivity. Qed.

(** ** The line composer *)

(** Splitting gives one piece more than there are separators. *)
Lemma Split_length s sep : length (Split s sep) = S (countByte sep s).
Proof.
  induction s as [|c s IH]; simpl; [done|].
  destruct (Ascii.eqb c sep); simpl; [by rewrite IH|].
  destruct (Split s sep) as [|x xs]; simpl in *; [discriminate | done].
Qed.

Lemma Split_last s sep : ∃ init last, Split s sep = init ++ [last].
Proof.
  destruct (Split s sep) as [|x xs] eqn:E.
  - pose proof (Split_length s sep) as Hl. rewrite E in Hl. discriminate.
  - destruct (exists_last (l := x :: xs)) as (init & last & ->); [done|]. eauto.
Qed.

(** A single empty piece comes from the empty string only. *)
Lemma Split_single_empty s sep : Split s sep = [EmptyString] → s = EmptyString.
Proof.
  destruct s as [|c s]; simpl; [done|].
  pose proof (Split_length s sep) as Hl.
  destruct (Ascii.eqb c sep), (Split s sep) as [|x xs]; intros [=]; discriminate.
Qed.

Lemma ReplaceAll_nonempty s old new :
  new ≠ EmptyString → s ≠ EmptyString → ReplaceAll s old new ≠ EmptyString.
Proof.
  intros Hn Hs. destruct s as [|c s]; [done|].
  unfold ReplaceAll. cbn [replaceFrom].
  destruct (String.prefix old (String c s)); [|done].
  by destruct new.
Qed.

Lemma normalize_nonempty s : s ≠ EmptyString → normalize s ≠ EmptyString.
Proof.
  intros Hs. unfold normalize.
  repeat apply ReplaceAll_nonempty; done.
Qed.

(** *** No escaped line break is left *)

Lemma prefix_escLF s :
  String.prefix escLF s = true ↔ ∃ r, s = String "092" (String "n" r).
Proof.
  unfold escLF. split.
  - destruct s as [|a [|b r]]; cbn [String.prefix]; try done.
    + by destruct (ascii_dec "092" a).
    + destruct (ascii_dec "092" a) as [<-|]; [|done].
      destruct (ascii_dec "n" b) as [<-|]; [|done]. by exists r.
  - intros [r ->]. cbn [String.prefix].
    destruct (ascii_dec "092" "092"); [|done].
    destruct (ascii_dec "n" "n"); [by destruct r | done].
Qed.

Lemma prefix_escLF_false a s :
  a ≠ "092"%char → String.prefix escLF (String a s) = false.
Proof.
  intros Ha. destruct (String.prefix escLF (String a s)) eqn:E; [|done].
  apply prefix_escLF in E as [r [= -> _]]. done.
Qed.

Lemma Contains_tail a s pat : Contains (String a s) pat = false → Contains s pat = false.
Proof. simpl. by intros [_ ?]%orb_false_elim. Qed.

(** A replacement by LF gives a string that begins with n only when the
    string it is made from does. *)
Lemma replaceFrom_head_n old s t :
  replaceFrom old LF 0 s = String "n" t → ∃ s', s = String "n" s'.
Proof.
  destruct s as [|a s]; cbn [replaceFrom]; [done|].
  destruct (String.prefix old (String a s)); [by intros [=]|].
  intros [= -> _]. by eexists.
Qed.

Lemma replaceFrom_no_escLF (old : string) (s : string) (skip : nat) :
  (old = escLF ∨ Contains s escLF = false) →
  Contains (replaceFrom old LF skip s) escLF = false.
Proof.
  revert skip. induction s as [|a s IH]; intros skip Hs; [done|].
  assert (Htail : old = escLF ∨ Contains s escLF = false).
  { destruct Hs as [?|Hc]; [by left | right; by eapply Contains_tail]. }
  destruct skip as [|k]; cbn [replaceFrom]; [|by apply IH].
  destruct (String.prefix old (String a s)) eqn:Hp.
  - change (LF +:+ ?x) with (String "010" x). cbn [Contains].
    rewrite prefix_escLF_false by done. by apply IH.
  - cbn [Contains]. rewrite IH by done. rewrite orb_false_r.
    destruct (String.prefix escLF (String a (replaceFrom old LF 0 s))) eqn:E; [|done].
    apply prefix_escLF in E as [r [= -> Hr]].
    apply replaceFrom_head_n in Hr as [s' ->].
    assert (Hpre : String.prefix escLF (String "092" (String "n" s')) = true)
      by (apply prefix_escLF; eauto).
    destruct Hs as [->|Hc]; [congruence|].
    cbn [Contains] in Hc. rewrite Hpre in Hc. done.
Qed.

(** After the three replacements no backslash is followed by n. *)
Lemma normalize_no_escLF s : Contains (normalize s) escLF = false.
Proof.
  unfold normalize, ReplaceAll.
  apply replaceFrom_no_escLF. right.
  apply replaceFrom_no_escLF. by left.
Qed.

(** The same holds for the escaped CR LF, which ends with an escaped LF. *)
Lemma prefix_escCRLF s :
  String.prefix escCRLF s = true →
  ∃ r, s = String "092" (String "r" (String "092" (String "n" r))).
Proof.
  unfold escCRLF, escLF.
  destruct s as [|a [|b [|c [|d r]]]]; cbn [String.prefix];
    repeat match goal with
           | |- context [ascii_dec ?x ?y] => destruct (ascii_dec x y) as [<-|]
           end; try done.
  intros _. by exists r.
Qed.

Lemma Contains_escCRLF s : Contains s escCRLF = true → Contains s escLF = true.
Proof.
  induction s as [|a s IH]; [done|].
  cbn [Contains]. intros [Hp|Hc]%orb_true_iff.
  - apply prefix_escCRLF in Hp as [r [= -> ->]].
    apply orb_true_iff. right. cbn [Contains].
    apply orb_true_iff. right.
    apply orb_true_iff. left. apply prefix_escLF. eauto.
  - apply orb_true_iff. right. by apply IH.
Qed.

Lemma normalize_no_escCRLF s : Contains (normalize s) escCRLF = false.
Proof.
  destruct (Contains (normalize s) escCRLF) eqn:E; [|done].
  apply Contains_escCRLF in E. by rewrite normalize_no_escLF in E.
Qed.

Lemma len_zero s : (0 =? len s) = true ↔ s = EmptyString.
Proof.
  unfold len. rewrite Z.eqb_eq. destruct s; simpl String.length; [done|].
  split; [lia | discriminate].
Qed.

Section ComposerFacts.

Variable Time : Type.
Variable Format : Time → string.
Variable UTC : Time → Time.
Context {W : Type} `{LineWriter W}.

Abbreviation timestamp := (timestamp Time Format UTC).
Abbreviation WriteString := (WriteString Time Format UTC).

Variables ts pf sf : string.

Lemma written_nil_pending init :
  written ts pf sf [] init = map (fun y => [ts; pf; y; sf]) init.
Proof. by destruct init. Qed.

(** The rounds of the loop for the pieces a line break follows: each
    completes a line and hands it to the line writer. *)
Lemma loop_complete (init : list string) (st : Loop) (c : Z) :
  0 ≤ c →
  lineEndCount st = Z.of_nat (length init) + c →
  foldl (composeStep ts pf sf) st init
  = mkLoop (writeLines (written ts pf sf (lLine st) init) (lLw st))
           (match init with [] => lLine st | _ => [] end)
           c (emptyLine st).
Proof.
  revert st. induction init as [|x xs IH]; intros st Hc Hn.
  - simpl in *. destruct st; simpl in *. by subst.
  - cbn [foldl]. rewrite IH; [| done |].
    + unfold composeStep. destruct (lLine st) as [|t l] eqn:El; simpl length.
      * replace (0 <? lineEndCount st) with true
          by (symmetry; apply Z.ltb_lt; rewrite Hn; simpl length; lia).
        simpl. rewrite written_nil_pending. by destruct xs.
      * replace (0 <? lineEndCount st) with true
          by (symmetry; apply Z.ltb_lt; rewrite Hn; simpl length; lia).
        simpl. rewrite written_nil_pending. by destruct xs.
    + unfold composeStep. destruct (lLine st) as [|t l] eqn:El; simpl length.
      * replace (0 <? lineEndCount st) with true
          by (symmetry; apply Z.ltb_lt; rewrite Hn; simpl length; lia).
        simpl. rewrite Hn. simpl length. lia.
      * replace (0 <? lineEndCount st) with true
          by (symmetry; apply Z.ltb_lt; rewrite Hn; simpl length; lia).
        simpl. rewrite Hn. simpl length. lia.
Qed.

(** The round for the final piece, which no line break follows. *)
Lemma loop_last (st : Loop) (last : string) :
  lineEndCount st = 0 →
  composeStep ts pf sf st last
  = match lLine st with
    | [] => mkLoop (lLw st) [ts; pf; last] 0
                   (match last with EmptyString => true | _ => emptyLine st end)
    | _ => mkLoop (lLw st) (lLine st ++ [last]) 0 (emptyLine st)
    end.
Proof.
  intros Hc. unfold composeStep. rewrite Hc.
  destruct (lLine st) as [|t l]; simpl; [|done].
  by destruct last.
Qed.

(** A call of WriteString on a non-empty string, in closed form. *)
Lemma WriteString_spec (p : TriceLineComposer W) (now : Time) (s : string)
    (init : list string) (last : string) :
  s ≠ EmptyString →
  pieces s = init ++ [last] →
  ts = timestamp p now → pf = prefix p → sf = suffix p →
  WriteString p now s
  = (len s, None,
     mkComposer (writeLines (written ts pf sf (line p) init) (lw p))
                (timestampFormat p) (prefix p) (suffix p)
                (retained ts pf (line p) init last) (err p)).
Proof.
  intros Hs Hp Hts Hpf Hsf. unfold WriteString.
  destruct (0 =? len s) eqn:Hz; [by apply len_zero in Hz|].
  rewrite Hp, <- Hts, <- Hpf, <- Hsf. rewrite foldl_app.
  rewrite (loop_complete init _ 0); [| lia |].
  - cbn [foldl]. rewrite loop_last by done. cbn [lLw lLine emptyLine].
    destruct init as [|x xs], (line p) as [|t l], last as [|a last']; simpl; done.
  - cbn [lineEndCount]. rewrite length_app. simpl length. lia.
Qed.

End ComposerFacts.

Section ComposerClaims.

Variable Time : Type.
Variable Format : Time → string.
Variable UTC : Time → Time.
Context {W : Type} `{LineWriter W}.

Abbreviation timestamp := (timestamp Time Format UTC).
Abbreviation WriteString := (WriteString Time Format UTC).
Abbreviation WriteStrings := (WriteStrings Time Format UTC).

(** The pieces of a string, the final one apart. *)
Lemma pieces_split (s : string) :
  ∃ init last, pieces s = init ++ [last] ∧
               length init = countByte "010" (normalize s) ∧
               take (countByte "010" (normalize s)) (pieces s) = init ∧
               List.last (pieces s) EmptyString = last.
Proof.
  unfold pieces.
  destruct (Split_last (normalize s) "010") as (init & last & E).
  pose proof (Split_length (normalize s) "010") as Hl.
  rewrite E in *. rewrite length_app in Hl. simpl in Hl.
  exists init, last. split; [done|].
  assert (Hk : length init = countByte "010" (normalize s)) by lia.
  split; [done|]. rewrite <- Hk. split.
  - by rewrite take_app_length.
  - apply last_last.
Qed.

(** A call of WriteString in terms of the pieces of its string. *)
Lemma WriteString_pieces (p : TriceLineComposer W) (now : Time) (s : string) :
  let ss := pieces s in
  let k := countByte "010" (normalize s) in
  let ts := timestamp p now in
  let L := written ts (prefix p) (suffix p) (line p) (take k ss) in
  let r := (WriteString p now s).2 in
  length L = k ∧
  lw r = writeLines L (lw p) ∧
  line r = match s with
           | EmptyString => line p
           | _ => retained ts (prefix p) (line p) (take k ss) (List.last ss EmptyString)
           end.
Proof.
  intros ss k ts L r.
  destruct (pieces_split s) as (init & last & Hp & Hlen & Htake & Hlast).
  fold ss k in Hp, Hlen, Htake, Hlast.
  split.
  { subst L. rewrite Htake. destruct init; simpl in *; [done|].
    rewrite length_map. lia. }
  destruct s as [|c s']; [done|].
  subst r L. rewrite Htake, Hlast.
  by rewrite (WriteString_spec Time Format UTC ts (prefix p) (suffix p)
                p now (String c s') init last).
Qed.

(** C10: WriteString returns the length of the string and no error; on
    the empty string it returns 0 and no error, writes no line and leaves
    the composer as it is. *)
Theorem WriteString_returns (p : TriceLineComposer W) (now : Time) (s : string) :
  (WriteString p now s).1 = (len s, None) ∧
  (s = EmptyString → WriteString p now s = (0, None, p)).
Proof.
  split.
  - unfold WriteString. by destruct (0 =? len s).
  - by intros ->.
Qed.

(** C6: WriteString replaces the escaped "\r\n", the escaped "\n" and
    CR LF by LF, in this order, and splits at LF; no escaped line break is
    left in what is split.  With k line breaks in it, exactly k lines are
    handed to the line writer, in the order of the pieces, and what follows
    the last line break is kept as the one line in progress.  On "a", LF,
    "b", LF, "c", LF and no line in progress the lines with the bodies "a",
    "b" and "c" are written and no line is in progress afterwards. *)
Theorem WriteString_lines (p : TriceLineComposer W) (now : Time) (s : string) :
  let ss := pieces s in
  let k := countByte "010" (normalize s) in
  let ts := timestamp p now in
  let L := written ts (prefix p) (suffix p) (line p) (take k ss) in
  let r := (WriteString p now s).2 in
  ss = Split (ReplaceAll (ReplaceAll (ReplaceAll s escCRLF LF) escLF LF) CRLF LF) "010" ∧
  Contains (normalize s) escCRLF = false ∧
  Contains (normalize s) escLF = false ∧
  length ss = S k ∧
  length L = k ∧
  lw r = writeLines L (lw p) ∧
  line r = match s with
           | EmptyString => line p
           | _ => retained ts (prefix p) (line p) (take k ss) (List.last ss EmptyString)
           end ∧
  (line p = [] →
   let r3 := (WriteString p now ("a" +:+ LF +:+ "b" +:+ LF +:+ "c" +:+ LF)).2 in
   let l3 := [ [ts; prefix p; "a"; suffix p];
               [ts; prefix p; "b"; suffix p];
               [ts; prefix p; "c"; suffix p] ] in
   lw r3 = writeLines l3 (lw p) ∧ line r3 = [] ∧
   lineBody <$> l3 = ["a"; "b"; "c"]).
Proof.
  intros ss k ts L r.
  split; [done|].
  split; [apply normalize_no_escCRLF|].
  split; [apply normalize_no_escLF|].
  split; [apply Split_length|].
  destruct (WriteString_pieces p now s) as (HL & Hlw & Hline).
  split; [done|]. split; [done|]. split; [done|].
  intros Hempty r3 l3. subst r3 l3.
  rewrite (WriteString_spec Time Format UTC ts (prefix p) (suffix p) p now _
             ["a"; "b"; "c"] EmptyString); try done.
  simpl. by rewrite Hempty.
Qed.

(** C7: the timestamp of a line is that of the call which started it.  A
    call that finds no line in progress stamps every line it writes or
    leaves in progress with its own timestamp; a call that finds a line in
    progress leaves the timestamp of that line as it is, in the line it
    completes or extends, and stamps the lines that follow with its own.
    Writing "msg:value=" and then "200", LF gives the one line with the
    body "msg:value=200" and the timestamp of the first call. *)
Theorem WriteString_timestamp (p : TriceLineComposer W) (now : Time) (s : string) :
  let ss := pieces s in
  let k := countByte "010" (normalize s) in
  let ts := timestamp p now in
  let L := written ts (prefix p) (suffix p) (line p) (take k ss) in
  let r := (WriteString p now s).2 in
  lw r = writeLines L (lw p) ∧
  (s ≠ EmptyString → line p = [] →
     Forall (λ l, lineTimestamp l = Some ts) L ∧
     (line r ≠ [] → lineTimestamp (line r) = Some ts)) ∧
  (∀ t0 rest, s ≠ EmptyString → line p = t0 :: rest →
     (∀ l, head L = Some l → lineTimestamp l = Some t0) ∧
     Forall (λ l, lineTimestamp l = Some ts) (tail L) ∧
     (L = [] → lineTimestamp (line r) = Some t0) ∧
     (L ≠ [] → line r ≠ [] → lineTimestamp (line r) = Some ts)) ∧
  (∀ now2 : Time, line p = [] →
     let p1 := (WriteString p now "msg:value=").2 in
     let r2 := (WriteString p1 now2 ("200" +:+ LF)).2 in
     let l := [ts; prefix p; "msg:value="; "200"; suffix p] in
     lw p1 = lw p ∧ lw r2 = writeLines [l] (lw p) ∧ line r2 = [] ∧
     lineBody l = "msg:value=200" ∧ lineTimestamp l = Some ts).
Proof.
  intros ss k ts L r.
  destruct (WriteString_pieces p now s) as (_ & Hlw & Hline).
  fold ss k ts L r in Hlw, Hline.
  split; [done|].
  assert (Hstamp : ∀ xs : list string,
             Forall (λ l, lineTimestamp l = Some ts)
                    (map (λ y, [ts; prefix p; y; suffix p]) xs)).
  { intros xs. apply Forall_forall. intros l (y & -> & _)%list_elem_of_fmap. done. }
  split; [|split].
  - intros Hs Hp. destruct s as [|c s']; [done|].
    rewrite Hline. subst L. rewrite Hp. rewrite written_nil_pending.
    split; [apply Hstamp|].
    unfold retained.
    destruct (take k ss), (List.last ss EmptyString); done.
  - intros t0 rest Hs Hp. destruct s as [|c s']; [done|].
    rewrite Hline. subst L. rewrite Hp. unfold written, retained.
    destruct (take k ss) as [|x xs]; simpl.
    + repeat split; try done.
    + repeat split; try done.
      * by intros l [= <-].
      * intros _. by destruct (List.last ss EmptyString).
  - intros now2 Hp p1 r2 l. subst p1 r2.
    rewrite (WriteString_spec Time Format UTC ts (prefix p) (suffix p) p now
               "msg:value=" [] "msg:value="); try done.
    rewrite Hp. cbn [written retained writeLines foldl lw].
    rewrite (WriteString_spec Time Format UTC (timestamp p now2) (prefix p) (suffix p)
               _ now2 ("200" +:+ LF) ["200"] EmptyString); try done.
Qed.

(** C8: when the final piece of a non-empty string is empty, the new line
    it starts is dropped before WriteString returns: no line is in
    progress afterwards, and the next call starts afresh, all its lines
    bearing its own timestamp. *)
Theorem WriteString_empty_start (p : TriceLineComposer W) (now : Time) (s : string) :
  s ≠ EmptyString →
  List.last (pieces s) EmptyString = EmptyString →
  let r := (WriteString p now s).2 in
  line r = [] ∧
  ∀ (now' : Time) (s' : string), s' ≠ EmptyString →
    let ts' := timestamp r now' in
    let r' := (WriteString r now' s').2 in
    lw r' = writeLines (map (λ y, [ts'; prefix p; y; suffix p])
                            (removelast (pieces s'))) (lw r) ∧
    (line r' = [] ∨ line r' = [ts'; prefix p; List.last (pieces s') EmptyString]).
Proof.
  intros Hs Hlast r.
  destruct (pieces_split s) as (init & last & Hp & _ & _ & Hl).
  rewrite Hlast in Hl. subst last.
  assert (Hinit : init ≠ []).
  { intros ->. simpl in Hp. apply Split_single_empty in Hp.
    by apply normalize_nonempty in Hs. }
  assert (Hr : line r = [] ∧ prefix r = prefix p ∧ suffix r = suffix p).
  { subst r.
    rewrite (WriteString_spec Time Format UTC (timestamp p now) (prefix p) (suffix p)
               p now s init EmptyString); try done.
    simpl. unfold retained. by destruct init, (line p). }
  destruct Hr as (Hr & Hpf & Hsf). split; [done|].
  intros now' s' Hs' ts' r'. subst r'.
  destruct (pieces_split s') as (init' & last' & Hp' & _ & _ & _).
  rewrite (WriteString_spec Time Format UTC ts' (prefix p) (suffix p)
             r now' s' init' last'); try done.
  rewrite Hp'. rewrite removelast_last, last_last. simpl.
  rewrite Hr, written_nil_pending. split; [done|].
  unfold retained. destruct init', last'; auto.
Qed.

End ComposerClaims.

Lemma WriteString_lines_witness :
  let p := logComposer "LOCmicro" in
  let r3 := (WriteString Z pretty id p 7 ("a" +:+ LF +:+ "b" +:+ LF +:+ "c" +:+ LF)).2 in
  lw r3 = [ ["7  "; "com1: "; "a"; " |"];
            ["7  "; "com1: "; "b"; " |"];
            ["7  "; "com1: "; "c"; " |"] ] ∧
  line r3 = [].
Proof.
  intros p r3.
  destruct (WriteString_lines Z pretty id p 7 EmptyString)
    as (_ & _ & _ & _ & _ & _ & _ & H3).
  destruct H3 as (Hlw & Hline & _); [reflexivity|].
  split; [exact Hlw | exact Hline].
Defined.

Lemma WriteString_timestamp_witness :
  let p := logComposer "LOCmicro" in
  let p1 := (WriteString Z pretty id p 7 "msg:value=").2 in
  let r2 := (WriteString Z pretty id p1 9 ("200" +:+ LF)).2 in
  lw r2 = [ ["7  "; "com1: "; "msg:value="; "200"; " |"] ] ∧ line r2 = [].
Proof.
  intros p p1 r2.
  destruct (WriteString_timestamp Z pretty id p 7 "msg:value=") as (_ & _ & _ & H4).
  destruct (H4 9) as (_ & Hlw & Hline & _); [reflexivity|].
  split; [exact Hlw | exact Hline].
Defined.

Lemma WriteString_empty_start_witness :
  let p := logComposer "LOCmicro" in
  let r := (WriteString Z pretty id p 7 ("x" +:+ LF)).2 in
  line r = [] ∧
  lw (WriteString Z pretty id r 9 ("y" +:+ LF)).2 = lw r ++ [ ["9  "; "com1: "; "y"; " |"] ].
Proof.
  intros p r.
  destruct (WriteString_empty_start Z pretty id p 7 ("x" +:+ LF)) as [Hline Hnext];
    [discriminate | reflexivity |].
  split; [exact Hline|].
  destruct (Hnext 9 ("y" +:+ LF)) as [Hlw _]; [discriminate|].
  exact Hlw.
Defined.

(** The newline spellings in one string. *)
Example pieces_spellings :
  pieces ("x" +:+ escCRLF +:+ "y" +:+ escLF +:+ "z" +:+ CRLF +:+ "w" +:+ LF +:+ "v")
  = ["x"; "y"; "z"; "w"; "v"].
Proof. reflexivity. Qed.

Example WriteString_run :
  let p := logComposer "zero" in
  let r := (WriteString Z pretty id p 7 ("a" +:+ escLF +:+ LF +:+ "b" +:+ CRLF +:+ "c")).2 in
  lw r = [ ["2006-01-02_1504-05 "; "com1: "; "a"; " |"];
           ["2006-01-02_1504-05 "; "com1: "; EmptyString; " |"];
           ["2006-01-02_1504-05 "; "com1: "; "b"; " |"] ] ∧
  line r = ["2006-01-02_1504-05 "; "com1: "; "c"].
Proof. split; reflexivity. Qed.

(** ** createCipher *)

Lemma be_length n x : length (Sha1.be n x) = n.
Proof. induction n as [|n IH]; simpl; [done | by rewrite IH]. Qed.

(** The hash has 20 bytes, whatever the message. *)
Lemma sum_length m : length (Sha1.sum m) = 20%nat.
Proof. unfold Sha1.sum. by rewrite !length_app, !be_length. Qed.

Example sum_abc :
  Sha1.sum (Sha1.bytes "abc")
  = [0xa9; 0x99; 0x3e; 0x36; 0x47; 0x06; 0x81; 0x6a; 0xba; 0x3e;
     0x25; 0x71; 0x78; 0x50; 0xc2; 0x6c; 0x9c; 0xd0; 0xd8; 0x9d].
Proof. vm_compute. reflexivity. Qed.

Example sum_empty :
  Sha1.sum (Sha1.bytes EmptyString)
  = [0xda; 0x39; 0xa3; 0xee; 0x5e; 0x6b; 0x4b; 0x0d; 0x32; 0x55;
     0xbf; 0xef; 0x95; 0x60; 0x18; 0x90; 0xaf; 0xd8; 0x07; 0x09].
Proof. vm_compute. reflexivity. Qed.

(** C9: for every pass-phrase createCipher makes the cipher from the first
    16 bytes of the SHA-1 hash of the pass-phrase and returns no error; the
    encryption flag is true exactly when the pass-phrase is not "none". *)
Theorem createCipher_key (password : string) (show : bool) :
  let r := createCipher password show in
  let h := Sha1.sum (Sha1.bytes password) in
  length h = 20%nat ∧
  length (take 16 h) = 16%nat ∧
  crCipher r = Some (mkCipher (take 16 h)) ∧
  crErr r = None ∧
  (crCrypto r = true ↔ password ≠ "none").
Proof.
  intros r h. subst r.
  assert (Hh : length h = 20%nat) by apply sum_length.
  assert (Hk : length (take 16 h) = 16%nat) by (rewrite length_take; lia).
  split; [exact Hh|]. split; [exact Hk|].
  unfold createCipher, NewCipher. fold h. clearbody h. rewrite Hk.
  change (Z.of_nat 16 =? 16) with true. cbv iota.
  destruct (String.eqb_spec "none" password) as [<-|Hne]; cbn [negb crCipher crErr crCrypto].
  - split; [reflexivity|]. split; [reflexivity|].
    split; [discriminate | intros Hn; by destruct Hn].
  - split; [reflexivity|]. split; [reflexivity|].
    split; [intros _ Heq; by apply Hne | reflexivity].
Qed.

Example createCipher_none :
  createCipher "none" true
  = mkCipherResult
      (Some (mkCipher [113; 248; 231; 151; 110; 76; 188; 69;
                       97; 201; 214; 47; 178; 131; 231; 247]))
      false None [PrintedNoEncryption].
Proof. vm_compute. reflexivity. Qed.

(** * Further properties *)

(** ** The line composer over several calls *)

(** Joining the pieces of a split with the separator gives the string
    back. *)
Lemma concat_Split (x : string) :
  String.concat LF (Split x "010") = x.
Proof.
  induction x as [|a x IH]; [done|].
  cbn [Split]. destruct (Ascii.eqb_spec a "010") as [->|Hne].
  - pose proof (Split_length x "010") as Hl.
    destruct (Split x "010") as [|y ys]; [discriminate Hl|].
    change (String.concat LF (EmptyString :: y :: ys))
      with (LF +:+ String.concat LF (y :: ys)).
    by rewrite IH.
  - pose proof (Split_length x "010") as Hl.
    destruct (Split x "010") as [|y ys]; [discriminate Hl|].
    destruct ys as [|z zs]; cbn [String.concat] in *; by rewrite <- IH.
Qed.

Lemma append_cons (x : ascii) (a b : string) : String x a +:+ b = String x (a +:+ b).
Proof. reflexivity. Qed.

Lemma append_nil_l (b : string) : EmptyString +:+ b = b.
Proof. reflexivity. Qed.

Lemma append_nil_r (a : string) : a +:+ EmptyString = a.
Proof. induction a as [|x a IH]; [done|]. by rewrite append_cons, IH. Qed.

Lemma append_assoc (a b c : string) : (a +:+ b) +:+ c = a +:+ b +:+ c.
Proof.
  induction a as [|x a IH]; [done|]. by rewrite !append_cons, IH.
Qed.

Lemma concat_empty_snoc (l : list string) (x : string) :
  String.concat EmptyString (l ++ [x]) = String.concat EmptyString l +:+ x.
Proof.
  induction l as [|a [|b l] IH]; [done| |].
  - cbn [app String.concat]. by rewrite append_nil_l.
  - change (String.concat EmptyString ((a :: b :: l) ++ [x]))
      with (a +:+ EmptyString +:+ String.concat EmptyString ((b :: l) ++ [x])).
    rewrite IH. cbn [String.concat]. by rewrite !append_nil_l, append_assoc.
Qed.

Lemma concat_LF_head (a x : string) (rest : list string) :
  String.concat LF ((a +:+ x) :: rest) = a +:+ String.concat LF (x :: rest).
Proof. destruct rest; cbn [String.concat]; [done|]. by rewrite append_assoc. Qed.

Section ComposerMore.

Variable Time : Type.
Variable Format : Time → string.
Variable UTC : Time → Time.
Context {W : Type} `{LineWriter W}.

Abbreviation timestamp := (timestamp Time Format UTC).
Abbreviation WriteString := (WriteString Time Format UTC).
Abbreviation WriteStrings := (WriteStrings Time Format UTC).

(** WriteString leaves the settings of the composer alone. *)
Lemma WriteString_settings (p : TriceLineComposer W) (now : Time) (s : string) :
  let r := (WriteString p now s).2 in
  timestampFormat r = timestampFormat p ∧ prefix r = prefix p ∧
  suffix r = suffix p ∧ err r = err p.
Proof. intros r. subst r. unfold WriteString. by destruct (0 =? len s). Qed.

(** A string without line break is one piece. *)
Lemma Split_no_sep (x : string) (sep : ascii) :
  countByte sep x = 0%nat → Split x sep = [x].
Proof.
  induction x as [|a x IH]; simpl; [done|].
  destruct (Ascii.eqb a sep); [done|]. intros Hx. by rewrite IH.
Qed.

(** A string without line break leaves the line writer alone; it extends
    the line in progress, whose head stays. *)
Lemma WriteString_extend (p : TriceLineComposer W) (now : Time) (s : string) t0 rest :
  line p = t0 :: rest →
  countByte "010" (normalize s) = 0%nat →
  let r := (WriteString p now s).2 in
  lw r = lw p ∧ timestampFormat r = timestampFormat p ∧ ∃ rest', line r = t0 :: rest'.
Proof.
  intros Hp Hk r.
  destruct (WriteString_pieces Time Format UTC p now s) as (_ & Hlw & Hline).
  fold r in Hlw, Hline. rewrite Hk in Hlw, Hline. rewrite take_0 in Hlw, Hline.
  split; [done|]. split.
  - subst r. unfold WriteString. by destruct (0 =? len s).
  - rewrite Hline, Hp. destruct s; simpl; eauto.
Qed.

Lemma WriteStrings_extend (p : TriceLineComposer W) (calls : list (Time * string)) t0 rest :
  line p = t0 :: rest →
  Forall (λ c, countByte "010" (normalize c.2) = 0%nat) calls →
  let q := WriteStrings p calls in
  lw q = lw p ∧ timestampFormat q = timestampFormat p ∧ ∃ rest', line q = t0 :: rest'.
Proof.
  revert p rest. induction calls as [|[now s] calls IH]; intros p rest Hp Hall q.
  - subst q. simpl. eauto.
  - apply Forall_cons in Hall as [Hs Hall]. simpl in Hs.
    destruct (WriteString_extend p now s t0 rest Hp Hs) as (Hlw & Htf & rest' & Hl).
    destruct (IH _ _ Hl Hall) as (Hlw' & Htf' & Hq).
    subst q. cbn [WriteStrings fst snd].
    split; [congruence|]. split; [congruence | done].
Qed.

(** A non-empty string without line break starts a line when none is in
    progress. *)
Lemma WriteString_start (p : TriceLineComposer W) (now : Time) (s : string) :
  line p = [] → s ≠ EmptyString →
  countByte "010" (normalize s) = 0%nat →
  let r := (WriteString p now s).2 in
  lw r = lw p ∧ timestampFormat r = timestampFormat p ∧
  line r = [timestamp p now; prefix p; normalize s].
Proof.
  intros Hp Hs Hk r.
  destruct (pieces_split s) as (init & last & Hpc & Hlen & _ & _).
  rewrite Hk in Hlen. destruct init; [|done]. simpl in Hpc.
  assert (Hlast : last = normalize s).
  { unfold pieces in Hpc. rewrite (Split_no_sep _ _ Hk) in Hpc. by injection Hpc. }
  subst r.
  rewrite (WriteString_spec Time Format UTC (timestamp p now) (prefix p) (suffix p)
             p now s [] last); try done.
  rewrite Hp. simpl. split; [done|]. split; [done|].
  rewrite Hlast. pose proof (normalize_nonempty s Hs).
  by destruct (normalize s).
Qed.


(** X3: The line that one call starts and later calls extend keeps the
    timestamp of the call that started it, however many strings without
    line break follow, up to the call that completes it. *)
Theorem WriteStrings_timestamp_kept (p : TriceLineComposer W) (now : Time) (s : string)
    (more : list (Time * string)) (now2 : Time) (s2 : string) :
  line p = [] → s ≠ EmptyString →
  countByte "010" (normalize s) = 0%nat →
  Forall (λ c, countByte "010" (normalize c.2) = 0%nat) more →
  let q := WriteStrings p ((now, s) :: more) in
  let r := (WriteString q now2 s2).2 in
  let L := written (timestamp q now2) (prefix q) (suffix q) (line q)
                   (take (countByte "010" (normalize s2)) (pieces s2)) in
  lw q = lw p ∧
  lineTimestamp (line q) = Some (timestamp p now) ∧
  lw r = writeLines L (lw p) ∧
  (∀ l, head L = Some l → lineTimestamp l = Some (timestamp p now)).
Proof.
  intros Hp Hs Hk Hmore q r L.
  destruct (WriteString_start p now s Hp Hs Hk) as (Hlw1 & _ & Hl1).
  destruct (WriteStrings_extend _ more _ _ Hl1 Hmore) as (Hlw2 & _ & rest & Hq).
  change (WriteStrings (WriteString p now s).2 more) with q in Hlw2, Hq.
  assert (Hlwq : lw q = lw p) by congruence.
  split; [done|]. split; [by rewrite Hq|].
  destruct (WriteString_pieces Time Format UTC q now2 s2) as (_ & Hlw & _).
  fold r L in Hlw. split; [by rewrite Hlw, Hlwq|].
  subst L. rewrite Hq. unfold written.
  destruct (take _ _); [done|]. by intros l0 [= <-].
Qed.

(** One call keeps the shape of the lines and of the line in progress. *)
Lemma WriteString_open_full (p : TriceLineComposer W) (now : Time) (s : string) :
  openLine (prefix p) (line p) →
  let r := (WriteString p now s).2 in
  let L := written (timestamp p now) (prefix p) (suffix p) (line p)
                   (take (countByte "010" (normalize s)) (pieces s)) in
  Forall (fullLine (prefix p) (suffix p)) L ∧
  openLine (prefix r) (line r).
Proof.
  intros Hopen r L.
  destruct (WriteString_pieces Time Format UTC p now s) as (_ & Hlw & Hline).
  destruct (WriteString_settings p now s) as (_ & Hpf & _).
  fold r L in Hlw, Hline, Hpf.
  rewrite Hpf, Hline. clear Hlw Hline Hpf. subst L.
  set (ts := timestamp p now). set (init := take _ _).
  set (last := List.last _ _).
  assert (Hfresh : ∀ xs : list string,
            Forall (fullLine (prefix p) (suffix p))
                   (map (λ y, [ts; prefix p; y; suffix p]) xs)).
  { intros xs. apply Forall_forall. intros l (y & -> & _)%list_elem_of_fmap.
    by exists ts, [y]. }
  destruct Hopen as [Hl|(t & frags & Hne & Hl)]; rewrite Hl.
  - split.
    + rewrite written_nil_pending. apply Hfresh.
    + destruct s; [by left|]. unfold retained.
      destruct init, last; try (by left); right; by eexists ts, [_].
  - split.
    + destruct init as [|x xs]; [constructor|]. simpl. constructor; [|apply Hfresh].
      exists t, (frags ++ [x]). split; [by destruct frags|].
      by rewrite <- !app_assoc.
    + destruct s; [right; by exists t, frags|]. unfold retained.
      destruct init as [|x xs].
      * right. exists t, (frags ++ [last]). split; [by destruct frags | done].
      * destruct last; [by left|]. right. by eexists ts, [_].
Qed.

(** X1: Every line handed to the line writer is a timestamp, the prefix, one
    or more fragments and the suffix, and the line in progress stays a
    timestamp, the prefix and one or more fragments. *)
Theorem WriteString_shape (p : TriceLineComposer W) (now : Time) (s : string) :
  openLine (prefix p) (line p) →
  let r := (WriteString p now s).2 in
  let L := written (timestamp p now) (prefix p) (suffix p) (line p)
                   (take (countByte "010" (normalize s)) (pieces s)) in
  lw r = writeLines L (lw p) ∧
  Forall (fullLine (prefix p) (suffix p)) L ∧
  openLine (prefix r) (line r).
Proof.
  intros Hopen r L.
  destruct (WriteString_pieces Time Format UTC p now s) as (_ & Hlw & _).
  fold r L in Hlw. split; [exact Hlw|].
  by apply WriteString_open_full.
Qed.

(** X2: Nothing of the text is lost or added: the bodies of the lines written
    by a call, followed by what is in progress afterwards, are, with line
    feeds between them, what was in progress before followed by the
    string after its replacements. *)
Theorem WriteString_content (p : TriceLineComposer W) (now : Time) (s : string) :
  openLine (prefix p) (line p) → s ≠ EmptyString →
  let r := (WriteString p now s).2 in
  let L := written (timestamp p now) (prefix p) (suffix p) (line p)
                   (take (countByte "010" (normalize s)) (pieces s)) in
  lw r = writeLines L (lw p) ∧
  String.concat LF ((lineBody <$> L) ++ [progressBody (line r)])
  = progressBody (line p) +:+ normalize s.
Proof.
  intros Hopen Hs r L.
  destruct (WriteString_pieces Time Format UTC p now s) as (_ & Hlw & Hline).
  fold r L in Hlw, Hline. split; [done|].
  destruct (pieces_split s) as (init & last & Hp & _ & Htake & Hlast).
  rewrite Hline. subst L. rewrite Htake, Hlast. clear Hlw Hline.
  destruct s as [|c s']; [done|].
  set (x := normalize (String c s')) in *.
  assert (Hx : String.concat LF (init ++ [last]) = x).
  { rewrite <- Hp. apply concat_Split. }
  set (ts := timestamp p (now)).
  assert (Hmap : ∀ xs : list string,
            lineBody <$> map (λ y, [ts; prefix p; y; suffix p]) xs = xs).
  { intros xs. induction xs as [|y ys IH]; [done|].
    simpl map. by rewrite fmap_cons, IH. }
  assert (Hlast' : progressBody (match last with
                                 | EmptyString => []
                                 | _ => [ts; prefix p; last]
                                 end) = last) by (by destruct last).
  destruct Hopen as [Hl|(t & frags & Hne & Hl)]; rewrite Hl.
  - rewrite written_nil_pending, Hmap. unfold retained.
    replace (match init with [] | _ => _ end)
      with (match last with EmptyString => [] | _ => [ts; prefix p; last] end)
      by (by destruct init).
    by rewrite Hlast', Hx.
  - unfold written, retained. destruct init as [|y ys].
    + simpl in Hx. cbn [fmap list_fmap app].
      unfold progressBody. cbn [drop app]. rewrite !drop_0, concat_empty_snoc.
      cbn [String.concat]. by rewrite Hx.
    + rewrite fmap_cons, Hmap, Hlast'.
      assert (Hb : lineBody ((t :: prefix p :: frags) ++ [y; suffix p])
                   = progressBody (t :: prefix p :: frags) +:+ y).
      { unfold lineBody, progressBody. cbn [app drop]. rewrite !drop_0.
        replace (frags ++ [y; suffix p]) with ((frags ++ [y]) ++ [suffix p])
          by (by rewrite <- app_assoc).
        rewrite removelast_last. apply concat_empty_snoc. }
      rewrite Hb. cbn [app]. rewrite concat_LF_head. by rewrite <- Hx.
Qed.

End ComposerMore.

(** The logging line writer appends. *)
Lemma writeLines_log (L : list (list string)) (w : list (list string)) :
  writeLines L w = w ++ L.
Proof.
  revert w. induction L as [|l L IH]; intros w; simpl.
  - by rewrite app_nil_r.
  - rewrite IH. unfold writeLine, logWriter. by rewrite <- app_assoc.
Qed.

(** [NewLineComposer] separates a prefix from the text by one space and the
    text from a suffix by one space, and leaves an empty one empty. *)
Lemma NewLineComposer_padding {W} (w : W) (tf pf sf : string) :
  let p := NewLineComposer w tf pf sf in
  prefix p = match pf with EmptyString => EmptyString | _ => pf +:+ " " end ∧
  suffix p = match sf with EmptyString => EmptyString | _ => " " +:+ sf end ∧
  line p = [] ∧ lw p = w ∧ timestampFormat p = tf.
Proof.
  intros p. subst p. unfold NewLineComposer. cbn [prefix suffix line lw timestampFormat].
  repeat split.
  - destruct pf as [|a pf]; [done|]. rewrite append_cons.
    destruct (String.eqb_spec " " (String a (pf +:+ " "))) as [Heq|]; [|done].
    injection Heq as _ Heq. by destruct pf.
  - destruct sf as [|a sf]; [done|].
    by destruct (String.eqb_spec " " (" " +:+ String a sf)).
Qed.

(** X4: Whatever strings a new composer is given, every line it hands to the
    line writer is a timestamp, the padded prefix, one or more fragments
    and the padded suffix. *)
Theorem NewLineComposer_lines (Time : Type) (Format : Time → string) (UTC : Time → Time)
    (tf pf sf : string) (calls : list (Time * string)) :
  let p0 := NewLineComposer (W := list (list string)) [] tf pf sf in
  let q := WriteStrings Time Format UTC p0 calls in
  let pf' := match pf with EmptyString => EmptyString | _ => pf +:+ " " end in
  let sf' := match sf with EmptyString => EmptyString | _ => " " +:+ sf end in
  Forall (fullLine pf' sf') (lw q) ∧ openLine pf' (line q).
Proof.
  intros p0 q pf' sf'.
  destruct (NewLineComposer_padding (W := list (list string)) [] tf pf sf)
    as (Hpf & Hsf & Hline & Hlw & _).
  fold p0 pf' sf' in Hpf, Hsf, Hline, Hlw.
  assert (Hinv : Forall (fullLine pf' sf') (lw p0) ∧ openLine pf' (line p0) ∧
                 prefix p0 = pf' ∧ suffix p0 = sf').
  { rewrite Hlw, Hline. repeat split; [constructor | by left | done | done]. }
  clear Hpf Hsf Hline Hlw. subst q. revert Hinv. generalize p0. clear p0.
  induction calls as [|[now s] calls IH]; intros p (Hl & Ho & Hp & Hs).
  - by split.
  - cbn [WriteStrings fst snd]. apply IH.
    destruct (WriteString_settings Time Format UTC p now s) as (_ & Hp' & Hs' & _).
    destruct (WriteString_pieces Time Format UTC p now s) as (_ & Hlw & _).
    destruct (WriteString_open_full Time Format UTC p now s) as (HL & Ho').
    { by rewrite Hp. }
    rewrite Hlw, writeLines_log, Hp', Hs'. rewrite Hp' in Ho'.
    rewrite Hp, Hs in *. repeat split; try done.
    by apply Forall_app.
Qed.

Section ComposerStamp.

Variable Time : Type.
Variable Format : Time → string.
Variable UTC : Time → Time.
Context {W : Type}.

(** X5: The timestamp is empty exactly for the formats "off" and "none". *)
Theorem timestamp_empty (p : TriceLineComposer W) (now : Time) :
  timestamp Time Format UTC p now = EmptyString
  ↔ timestampFormat p = "off" ∨ timestampFormat p = "none".
Proof.
  unfold timestamp.
  assert (Happ : ∀ a b : string, b ≠ EmptyString → a +:+ b ≠ EmptyString).
  { intros a b Hb. destruct a; [done|]. by rewrite append_cons. }
  destruct (String.eqb_spec (timestampFormat p) "LOCmicro") as [->|H1].
  { split; [intros He; by apply Happ in He | intros [?|?]; done]. }
  destruct (String.eqb_spec (timestampFormat p) "UTCmicro") as [->|H2].
  { split; [intros He; by apply Happ in He | intros [?|?]; done]. }
  destruct (String.eqb_spec (timestampFormat p) "off") as [->|H3]; [by split; auto|].
  destruct (String.eqb_spec (timestampFormat p) "none") as [->|H4]; [by split; auto|].
  cbn [orb].
  destruct (String.eqb_spec (timestampFormat p) "zero") as [->|H5].
  { split; [done | intros [?|?]; done]. }
  split; [intros He; by apply Happ in He | intros [?|?]; done].
Qed.

End ComposerStamp.

Lemma WriteStrings_timestamp_kept_witness :
  let p := logComposer "LOCmicro" in
  let q := WriteStrings Z pretty id p [(7, "msg:"); (8, "value="); (9, "200")] in
  let r := (WriteString Z pretty id q 10 ("!" +:+ LF +:+ "next" +:+ LF)).2 in
  lineTimestamp (line q) = Some "7  " ∧
  lw r = [ ["7  "; "com1: "; "msg:"; "value="; "200"; "!"; " |"];
           ["10  "; "com1: "; "next"; " |"] ].
Proof.
  intros p q r.
  destruct (WriteStrings_timestamp_kept Z pretty id p 7 "msg:"
              [(8, "value="); (9, "200")] 10 ("!" +:+ LF +:+ "next" +:+ LF))
    as (_ & Hts & Hlw & _); [reflexivity | discriminate | reflexivity | |].
  { repeat constructor. }
  split; [exact Hts | exact Hlw].
Defined.

Lemma WriteString_shape_witness :
  let p := (WriteString Z pretty id (logComposer "zero") 7 "ab").2 in
  let r := (WriteString Z pretty id p 8 ("c" +:+ LF +:+ "d")).2 in
  Forall (fullLine "com1: " " |") [ ["2006-01-02_1504-05 "; "com1: "; "ab"; "c"; " |"] ] ∧
  openLine "com1: " (line r).
Proof.
  intros p r.
  destruct (WriteString_shape Z pretty id p 8 ("c" +:+ LF +:+ "d")) as (_ & HL & Ho).
  { right. by exists "2006-01-02_1504-05 ", ["ab"]. }
  split; [exact HL | exact Ho].
Defined.

Lemma WriteString_content_witness :
  let p := (WriteString Z pretty id (logComposer "zero") 7 "ab").2 in
  let r := (WriteString Z pretty id p 8 ("c" +:+ escLF +:+ "d")).2 in
  String.concat LF ["abc"; "d"] = "ab" +:+ "c" +:+ LF +:+ "d" ∧
  lw r = [ ["2006-01-02_1504-05 "; "com1: "; "ab"; "c"; " |"] ] ∧
  line r = ["2006-01-02_1504-05 "; "com1: "; "d"].
Proof.
  intros p r.
  destruct (WriteString_content Z pretty id p 8 ("c" +:+ escLF +:+ "d")) as (Hlw & Hc).
  { right. by exists "2006-01-02_1504-05 ", ["ab"]. }
  { discriminate. }
  split; [exact Hc|]. split; [exact Hlw | reflexivity].
Defined.

(** ** preProcessing: what is printed and how many IDs are left *)

Section PreProcessingMore.

Variables (Min Max : Z) (til : gmap Z TriceFmt) (li : gmap Z TriceLI).

Lemma idSpace_fold_writer (ids : list Z) (acc : list Z) (w : Writer) :
  (foldl (idSpaceStep til li) (acc, w) ids).2 = w ++ omap (driftLine til li) ids.
Proof.
  revert acc w. induction ids as [|id ids IH]; intros acc w.
  - simpl. by rewrite app_nil_r.
  - cbn [foldl omap list_omap].
    destruct (idSpaceStep til li (acc, w) id) as [acc' w'] eqn:E.
    rewrite IH. unfold idSpaceStep, driftLine, Fprintln in *. simpl in E.
    destruct (til !! id), (li !! id); simpl in E; inversion E; subst;
      simpl; by rewrite <- ?app_assoc.
Qed.

(** The loop of preProcessing prints, in ascending order of the IDs from Min
    to Max, one line for each ID that only one of the two tables has. *)
Lemma preProcessing_lines (w : Writer) (p : idData) (w' : Writer) :
  preProcessing Min Max til li w = Some (p, w') →
  w' = w ++ omap (driftLine til li) (seqZ Min (Max - Min + 1)) ∧
  (w' = w ↔ ∀ id, Min ≤ id ≤ Max → (is_Some (til !! id) ↔ is_Some (li !! id))).
Proof.
  unfold preProcessing. case_match; [done|]. intros [= <- <-]. simpl.
  rewrite idSpace_fold_writer. split; [done|].
  set (l := seqZ Min (Max - Min + 1)).
  assert (Hnil : omap (driftLine til li) l = []
                 ↔ ∀ id, Min ≤ id ≤ Max → (is_Some (til !! id) ↔ is_Some (li !! id))).
  { split.
    - intros Hn id Hid.
      assert (Hin : id ∈ l) by (apply elem_of_seqZ; lia).
      destruct (driftLine til li id) as [m|] eqn:Hd.
      + assert (Hm : m ∈ omap (driftLine til li) l)
          by (apply list_elem_of_omap; eauto).
        rewrite Hn in Hm. by apply elem_of_nil in Hm.
      + unfold driftLine in Hd.
        destruct (til !! id), (li !! id); try done; split; intros [? ?]; eauto; done.
    - intros Hall. destruct (omap (driftLine til li) l) as [|m ms] eqn:Ho; [done|].
      assert (Hm : m ∈ omap (driftLine til li) l) by (rewrite Ho; left).
      apply list_elem_of_omap in Hm as (id & Hin & Hd).
      apply elem_of_seqZ in Hin. specialize (Hall id ltac:(lia)).
      unfold driftLine in Hd.
      destruct (til !! id) as [f|], (li !! id) as [x|]; try done.
      + destruct Hall as [Ha _]. by destruct Ha.
      + destruct Hall as [_ Ha]. by destruct Ha. }
  rewrite <- Hnil. split.
  - intros Heq. apply (f_equal length) in Heq. rewrite length_app in Heq.
    destruct (omap _ l); [done | simpl in Heq; lia].
  - intros ->. by rewrite app_nil_r.
Qed.

(** X7: Each ID from Min to Max is either left in IDSpace or a key of one of
    the tables: the two counts add up to the size of the range. *)
Theorem preProcessing_count (w : Writer) (p : idData) (w' : Writer) :
  preProcessing Min Max til li w = Some (p, w') →
  Z.of_nat (length (IDSpace p)) + Z.of_nat (size (usedIDs Min Max til li))
  = Max - Min + 1.
Proof.
  intros Hp.
  assert (Hn : 0 ≤ Max - Min + 1).
  { unfold preProcessing in Hp.
    destruct (Z.ltb_spec (Max - Min + 1) 0); [done | lia]. }
  apply preProcessing_Some in Hp as (_ & _ & _ & ->).
  set (l := seqZ Min (Max - Min + 1)).
  assert (Hused : usedIDs Min Max til li
                  = list_to_set (filter (λ id, ¬ unused til li id) l)).
  { apply set_eq. intros id. unfold usedIDs.
    rewrite elem_of_filter, elem_of_union, !elem_of_dom, elem_of_list_to_set,
      list_elem_of_filter. unfold l. rewrite elem_of_seqZ.
    unfold unused. rewrite <- !not_eq_None_Some.
    split.
    - intros [Hr Hk]. split; [|lia]. intros [Ht Hl]. destruct Hk; done.
    - intros [Hk Hr]. split; [lia|].
      destruct (til !! id) eqn:Ht; [by left|].
      destruct (li !! id) eqn:Hl; [by right|]. by destruct Hk. }
  rewrite Hused, size_list_to_set by (apply NoDup_filter, NoDup_seqZ).
  pose proof (filter_app_complement (unused til li) l) as Hperm.
  apply Permutation_length in Hperm. rewrite length_app in Hperm.
  assert (Hl : length l = Z.to_nat (Max - Min + 1)) by apply length_seqZ.
  lia.
Qed.

End PreProcessingMore.

(** X6: after the loading of the two tables, preProcessing adds to what is
    printed, in ascending order of the IDs from Min to Max, one line for
    each ID that only one of the loaded tables has, and nothing else; it
    adds nothing exactly when both tables have the same keys in the
    range. *)
Theorem preProcessing_report Min Max FnJSON LIFnJSON
    (NewLut : Writer → Afero → string → gmap Z TriceFmt * Writer * Afero)
    (NewLutLI : Writer → Afero → string → gmap Z TriceLI * Writer * Afero)
    (w : Writer) (fSys : Afero) (p : idData) (w' : Writer) (fSys' : Afero) :
  preProcessingFrom Min Max FnJSON LIFnJSON NewLut NewLutLI w fSys = Some (p, w', fSys') →
  let t := NewLut w fSys FnJSON in
  let l := NewLutLI t.1.2 t.2 LIFnJSON in
  let til := t.1.1 in
  let li := l.1.1 in
  let loaded := l.1.2 in
  idToTrice p = til ∧ idToLocRef p = li ∧
  w' = loaded ++ omap (driftLine til li) (seqZ Min (Max - Min + 1)) ∧
  (w' = loaded ↔ ∀ id, Min ≤ id ≤ Max → (is_Some (til !! id) ↔ is_Some (li !! id))).
Proof.
  intros H t l til li loaded. unfold preProcessingFrom in H.
  fold t in H. fold l in H. fold til li loaded in H.
  destruct (preProcessing Min Max til li loaded) as [[p0 w0]|] eqn:Hp;
    simpl in H; [|done].
  injection H as <- <- _.
  pose proof Hp as (Ht & Hl & _)%preProcessing_Some.
  destruct (preProcessing_lines _ _ _ _ _ _ _ Hp) as [Hw Hiff].
  done.
Qed.

Lemma preProcessing_report_witness :
  let til : gmap Z TriceFmt := {[ 11 := mkTriceFmt "TRICE" "a"; 13 := mkTriceFmt "TRICE" "b" ]} in
  let li : gmap Z TriceLI := {[ 11 := mkTriceLI "f.c" 3; 12 := mkTriceLI "f.c" 4 ]} in
  ∃ p w' fSys',
    preProcessingFrom 10 14 "til.json" "li.json" (loadTil til) (loadLi li)
                      ["start"] (mkAfero ∅ ∅ [])
    = Some (p, w', fSys') ∧
    w' = ["start"; "read til.json"; "read li.json";
          "ID 12 only inside li.json"; "ID 13 only inside til.json"].
Proof.
  intros til li.
  destruct (preProcessingFrom 10 14 "til.json" "li.json" (loadTil til) (loadLi li)
              ["start"] (mkAfero ∅ ∅ [])) as [[[p w'] fSys']|] eqn:Hp;
    [|by vm_compute in Hp].
  exists p, w', fSys'. split; [reflexivity|].
  destruct (preProcessing_report _ _ _ _ _ _ _ _ _ _ _ Hp) as (_ & _ & -> & _).
  vm_compute. reflexivity.
Defined.

Lemma preProcessing_count_witness :
  ∃ p w', preProcessing 10 14 {[ 11 := mkTriceFmt "TRICE" "a"; 13 := mkTriceFmt "TRICE" "b" ]}
                        {[ 11 := mkTriceLI "f.c" 3; 12 := mkTriceLI "f.c" 4 ]} []
          = Some (p, w') ∧
          Z.of_nat (length (IDSpace p))
          + Z.of_nat (size (usedIDs 10 14
                       {[ 11 := mkTriceFmt "TRICE" "a"; 13 := mkTriceFmt "TRICE" "b" ]}
                       {[ 11 := mkTriceLI "f.c" 3; 12 := mkTriceLI "f.c" 4 ]}))
          = 5.
Proof.
  eexists _, _. split; [vm_compute; reflexivity|].
  eapply (preProcessing_count 10 14
            {[ 11 := mkTriceFmt "TRICE" "a"; 13 := mkTriceFmt "TRICE" "b" ]}
            {[ 11 := mkTriceLI "f.c" 3; 12 := mkTriceLI "f.c" 4 ]} []).
  vm_compute. reflexivity.
Defined.

(** ** postProcessing: how it ends and what it prints *)

Section PostProcessingMore.

Variables FnJSON LIFnJSON : string.
Variables DryRun Verbose : bool.
Variables (p : idData) (w : Writer) (fSys : Afero).

Abbreviation post := (postProcessing FnJSON LIFnJSON DryRun Verbose p w fSys).

Lemma grown_ltb :
  (0 <? Z.of_nat (size (idToTrice p)) - idCount p) = bool_decide (grown p).
Proof.
  unfold grown. destruct (Z.ltb_spec 0 (Z.of_nat (size (idToTrice p)) - idCount p));
    symmetry; [apply bool_decide_eq_true | apply bool_decide_eq_false]; lia.
Qed.

(** X8: postProcessing ends the process exactly when a write that is due is
    refused: that of the format table, or, when the location file is not
    switched off, that of the location file. *)
Theorem postProcessing_exit :
  exited post = true
  ↔ tilWriteFails FnJSON DryRun p fSys
    ∨ (¬ liDisabled LIFnJSON ∧ LIFnJSON ∈ unwritable fSys).
Proof.
  unfold postProcessing, writeLI, FatalOnErr, FatalInfoOnErr, tilWriteFails, toFile.
  rewrite liDisabled_eqb, grown_ltb.
  destruct (decide (grown p)) as [G|G], DryRun,
           (decide (FnJSON ∈ unwritable fSys)) as [U|U],
           (decide (liDisabled LIFnJSON)) as [D|D],
           (decide (LIFnJSON ∈ unwritable fSys)) as [V|V];
    rewrite ?(bool_decide_eq_true_2 _ G), ?(bool_decide_eq_false_2 _ G),
            ?(bool_decide_eq_true_2 _ U), ?(bool_decide_eq_false_2 _ U),
            ?(bool_decide_eq_true_2 _ D), ?(bool_decide_eq_false_2 _ D);
    cbn -[String.eqb];
    rewrite ?(bool_decide_eq_true_2 _ V), ?(bool_decide_eq_false_2 _ V);
    cbn -[String.eqb];
    (split; [intros He; try discriminate He | intros Hor; try reflexivity; exfalso]);
    intuition congruence.
Qed.

(** postProcessing prints only when Verbose is set: then the number of IDs
    in the list and, when the format table is to be written, the number of
    IDs added. *)
Theorem postProcessing_print :
  outW post =
  w ++ (if Verbose
        then (pretty (size (idToTrice p)) +:+ " ID's in List " +:+ FnJSON)
             :: (if bool_decide (grown p ∧ DryRun = false)
                 then [pretty (Z.of_nat (size (idToTrice p)) - idCount p)
                       +:+ " ID's were added to List " +:+ FnJSON]
                 else [])
        else []).
Proof.
  unfold postProcessing, writeLI, FatalOnErr, FatalInfoOnErr, toFile, Fprintln.
  rewrite liDisabled_eqb, grown_ltb, bool_decide_and.
  destruct (bool_decide (grown p)), DryRun, Verbose,
           (bool_decide (FnJSON ∈ unwritable fSys)),
           (bool_decide (liDisabled LIFnJSON)); cbn -[String.eqb pretty];
    try destruct (bool_decide (LIFnJSON ∈ unwritable fSys)); cbn -[String.eqb pretty];
    by rewrite <- ?app_assoc, ?app_nil_r.
Qed.

End PostProcessingMore.

(** X9: When the format table has as many entries as preProcessing counted,
    postProcessing does not write it, dry run or not; the location file
    is written all the same unless it is switched off. *)
Theorem postProcessing_same_table Min Max FnJSON LIFnJSON DryRun Verbose
    til li w p w1 q fSys :
  preProcessing Min Max til li w = Some (p, w1) →
  size (idToTrice q) = size (idToTrice p) → idCount q = idCount p →
  newCalls fSys (postProcessing FnJSON LIFnJSON DryRun Verbose q w1 fSys)
  = if bool_decide (liDisabled LIFnJSON) then []
    else [(LIFnJSON, LiContent (idToLocNew q))].
Proof.
  intros Hp Hsize Hcount.
  apply preProcessing_Some in Hp as (Ht & _ & Hc & _).
  assert (Hg : ¬ grown q). { unfold grown. rewrite Hcount, Hsize, Hc, Ht. lia. }
  rewrite postProcessing_calls.
  rewrite (bool_decide_eq_false_2 (grown q ∧ _)) by tauto.
  rewrite (bool_decide_eq_false_2 (tilWriteFails _ _ _ _)); [done|].
  unfold tilWriteFails. tauto.
Qed.

Lemma postProcessing_same_table_witness :
  ∃ p w1,
    preProcessing 10 14 {[ 11 := mkTriceFmt "TRICE" "a" ]} ∅ [] = Some (p, w1) ∧
    newCalls (mkAfero ∅ ∅ []) (postProcessing "til.json" "li.json" false false p w1
                                              (mkAfero ∅ ∅ []))
    = [("li.json", LiContent ∅)].
Proof.
  eexists _, _. split; [vm_compute; reflexivity|].
  eapply (postProcessing_same_table 10 14 "til.json" "li.json" false false
            {[ 11 := mkTriceFmt "TRICE" "a" ]} ∅ []); [| reflexivity | reflexivity].
  vm_compute. reflexivity.
Defined.

(** ** createCipher and logTrices *)

Lemma be_bytes (n : nat) (x : Z) : Forall (λ b, 0 ≤ b < 256) (Sha1.be n x).
Proof.
  induction n as [|n IH]; simpl; constructor; [|done].
  change 255 with (Z.ones 8). rewrite Z.land_ones by lia.
  apply Z.mod_pos_bound. lia.
Qed.

(** X10: The key is made of 16 bytes, and neither the cipher nor the flag
    depends on [show], which only decides whether one item is printed: the
    key, or for "none" that there is no encryption. *)
Theorem createCipher_show (password : string) (show : bool) :
  let r := createCipher password show in
  let key := take 16 (Sha1.sum (Sha1.bytes password)) in
  Forall (λ b, 0 ≤ b < 256) key ∧
  crCipher r = crCipher (createCipher password false) ∧
  crCrypto r = crCrypto (createCipher password false) ∧
  crOut r = (if show
             then [if String.eqb "none" password then PrintedNoEncryption
                   else PrintedKey key]
             else []).
Proof.
  intros r key. subst r.
  assert (Hb : Forall (λ b, 0 ≤ b < 256) key).
  { apply Forall_take. unfold Sha1.sum. repeat apply Forall_app_2; apply be_bytes. }
  assert (Hk : length key = 16%nat).
  { unfold key. rewrite length_take, sum_length. lia. }
  split; [exact Hb|].
  unfold createCipher, NewCipher. fold key. clearbody key. rewrite Hk.
  change (Z.of_nat 16 =? 16) with true. cbv iota.
  by destruct (String.eqb "none" password), show.
Qed.

Section CommandFacts.

Variable Item : Type.
Variable Read : string → option (list Item).
Variable GetSerialPorts : list string + string.
Variable SetUp : string → Z → bool.

Abbreviation logTrices := (logTrices Item Read GetSerialPorts SetUp).
Abbreviation doSerialReceive := (doSerialReceive Item SetUp).

(** createCipher gives no error, whatever the pass-phrase. *)
Lemma createCipher_no_error password show :
  crErr (createCipher password show) = None ∧
  crCipher (createCipher password show)
  = Some (mkCipher (take 16 (Sha1.sum (Sha1.bytes password)))) ∧
  crCrypto (createCipher password show) = negb (String.eqb "none" password).
Proof.
  assert (Hk : length (take 16 (Sha1.sum (Sha1.bytes password))) = 16%nat).
  { rewrite length_take, sum_length. lia. }
  unfold createCipher, NewCipher.
  generalize dependent (take 16 (Sha1.sum (Sha1.bytes password))).
  intros key ->. change (Z.of_nat 16 =? 16) with true. cbv iota.
  by destruct (String.eqb "none" password).
Qed.

(** X11: logTrices never returns an error: it returns nil, ends the process or
    stays in the receive loop.  Without a port, and when the ID list cannot
    be read, it returns nil and leaves the ID list, the cipher and the
    encryption flag as they were. *)
Theorem logTrices_no_error cmd port baud fn password show (e : Env Item) :
  let r := logTrices cmd port baud fn password show e in
  (∀ err, r.2 ≠ Returns (Some err)) ∧
  (port = EmptyString ∨ (fn ≠ "none" ∧ Read fn = None) →
   r.2 = Returns None ∧ idList _ r.1 = idList _ e ∧
   rCipher _ r.1 = rCipher _ e ∧ rCrypto _ r.1 = rCrypto _ e).
Proof.
  intros r. subst r. unfold logTrices.
  destruct (createCipher_no_error password show) as (Herr & _ & _).
  destruct (String.eqb_spec EmptyString port) as [<-|Hport].
  { split; [done|]. by intros _. }
  destruct (String.eqb_spec "none" fn) as [<-|Hfn]; cbn [negb].
  - rewrite Herr.
    split; [|by intros [?|[? _]]].
    intros err. destruct (String.eqb port "COMscan").
    + destruct GetSerialPorts as [[|first ports]|msg]; try done.
      unfold doSerialReceive. by destruct (SetUp _ _).
    + unfold doSerialReceive. by destruct (SetUp _ _).
  - destruct (Read fn) as [l|] eqn:Hread.
    + rewrite Herr. split; [|intros [?|[_ ?]]; done].
      intros err. destruct (String.eqb port "COMscan").
      * destruct GetSerialPorts as [[|first ports]|msg]; try done.
        unfold doSerialReceive. by destruct (SetUp _ _).
      * unfold doSerialReceive. by destruct (SetUp _ _).
    + split; [done|]. by intros _.
Qed.

(** X12: When logTrices gets to the receive loop, the port is set up, the ID
    list is the one read from the file (or untouched for "none"), the
    cipher is keyed by the pass-phrase and the flag tells whether the
    pass-phrase is other than "none"; with "COMscan" the port is the first
    serial port found. *)
Theorem logTrices_receives cmd port baud fn password show (e : Env Item) port' baud' :
  let r := logTrices cmd port baud fn password show e in
  r.2 = Receives port' baud' →
  baud' = baud ∧ SetUp port' baud = true ∧
  rCipher _ r.1 = Some (mkCipher (take 16 (Sha1.sum (Sha1.bytes password)))) ∧
  rCrypto _ r.1 = negb (String.eqb "none" password) ∧
  (if String.eqb port "COMscan"
   then ∃ rest, GetSerialPorts = inl (port' :: rest)
   else port' = port) ∧
  (if String.eqb "none" fn then idList _ r.1 = idList _ e
   else Read fn = Some (idList _ r.1)).
Proof.
  intros r. subst r. unfold logTrices.
  destruct (createCipher_no_error password show) as (Herr & Hc & Hf).
  destruct (String.eqb EmptyString port); [done|].
  assert (Hds : ∀ pt (e0 : Env Item),
            (doSerialReceive pt baud e0).2 = Receives port' baud' →
            pt = port' ∧ baud' = baud ∧ SetUp port' baud = true ∧
            idList _ (doSerialReceive pt baud e0).1 = idList _ e0 ∧
            rCipher _ (doSerialReceive pt baud e0).1 = rCipher _ e0 ∧
            rCrypto _ (doSerialReceive pt baud e0).1 = rCrypto _ e0).
  { intros pt e0. unfold doSerialReceive.
    destruct (SetUp pt baud) eqn:Hs; [|done]. cbn. intros [= <- <-]. done. }
  destruct (String.eqb "none" fn); cbn [negb].
  - rewrite Herr. destruct (String.eqb port "COMscan").
    + destruct GetSerialPorts as [[|first ports]|msg]; try done.
      intros (-> & -> & Hs & Hl & Hci & Hcr)%Hds.
      rewrite Hl, Hci, Hcr. cbn. rewrite Hc, Hf. eauto 10.
    + intros (-> & -> & Hs & Hl & Hci & Hcr)%Hds.
      rewrite Hl, Hci, Hcr. cbn. by rewrite Hc, Hf.
  - destruct (Read fn) as [l|]; [|done].
    rewrite Herr. destruct (String.eqb port "COMscan").
    + destruct GetSerialPorts as [[|first ports]|msg]; try done.
      intros (-> & -> & Hs & Hl & Hci & Hcr)%Hds.
      rewrite Hl, Hci, Hcr. cbn. rewrite Hc, Hf. eauto 10.
    + intros (-> & -> & Hs & Hl & Hci & Hcr)%Hds.
      rewrite Hl, Hci, Hcr. cbn. by rewrite Hc, Hf.
Qed.

End CommandFacts.

Lemma logTrices_receives_witness :
  let read := λ fn : string, if String.eqb fn "til.json" then Some [1%nat; 2%nat] else None in
  let r := logTrices nat read (inl ["COM3"; "COM7"]) (λ _ _, true)
                     lCmd "COMscan" 115200 "til.json" "secret" false (mkEnv nat [] None false []) in
  r.2 = Receives "COM3" 115200 ∧ idList _ r.1 = [1%nat; 2%nat] ∧ rCrypto _ r.1 = true.
Proof.
  intros read r.
  assert (Hr : r.2 = Receives "COM3" 115200) by (vm_compute; reflexivity).
  destruct (logTrices_receives nat read (inl ["COM3"; "COM7"]) (λ _ _, true)
              lCmd "COMscan" 115200 "til.json" "secret" false (mkEnv nat [] None false [])
              "COM3" 115200 Hr) as (_ & _ & _ & Hf & _ & Hl).
  split; [exact Hr|]. split; [|exact Hf].
  vm_compute. reflexivity.
Defined.

(** ** HandleArgs and its subcommands *)

(** The subcommands that the switch knows. *)
Lemma subCommand_None (s : string) :
  subCommand s = None ↔
  s ∉ ["h"; "help"; "version"; "u"; "update"; "check"; "log"; "zeroSourceTreeIds"].
Proof.
  unfold subCommand. rewrite !not_elem_of_cons.
  repeat match goal with
         | |- context [String.eqb s ?x] =>
             destruct (String.eqb_spec s x) as [->|?];
             [split; [intros [=]|]; intros H; exfalso; intuition congruence|]
         end.
  split; [|done]. intros _. repeat split; try done. apply not_elem_of_nil.
Qed.

Section HandleArgsFacts.

Variable Item : Type.
Variable Read : string → option (list Item).
Variable GetSerialPorts : list string + string.
Variable SetUp : string → Z → bool.
Variable Update : string → string → bool → bool → list Item → list Item * option string.
Variable Check : list Item → string → string → list string.
Variable Abs : string → string + string.
Variable Parse : FlagSet → list string → Flags → Parsed.
Variables version commit date : string.
Variable osArgs : list string.

Abbreviation logTrices' := (logTrices Item Read GetSerialPorts SetUp).
Abbreviation ver := (ver Item version commit date).
Abbreviation help := (help Item version commit date).
Abbreviation update := (update Item Update).
Abbreviation checkList := (checkList Item Read Check).
Abbreviation zeroIds := (zeroIds Item).
Abbreviation HandleArgs :=
  (HandleArgs Item Read GetSerialPorts SetUp Update Check Abs Parse
     version commit date osArgs).

Lemma ver_end (e : Env Item) :
  (ver e).2 = Returns (if String.eqb EmptyString version
                       then Some "No goreleaser generated executable" else None).
Proof. unfold ver. by destruct (String.eqb EmptyString version). Qed.

Lemma help_end (e : Env Item) :
  (help e).2 = Returns (if String.eqb EmptyString version
                        then Some "No goreleaser generated executable" else None).
Proof. unfold help. apply ver_end. Qed.

Lemma update_end dryRun dir fn verbose (e : Env Item) :
  ∃ err, (update dryRun dir fn verbose e).2 = Returns err.
Proof. unfold update. destruct (Update _ _ _ _ _).2; eauto. Qed.

Lemma checkList_end fn dataset palette (e : Env Item) :
  (checkList fn dataset palette e).2 = Returns None.
Proof. unfold checkList. by destruct (Read fn). Qed.

Lemma zeroIds_end dryRun SrcZ cmd (e : Env Item) :
  ∃ err, (zeroIds dryRun SrcZ cmd e).2 = Returns err.
Proof. unfold zeroIds. destruct (String.eqb SrcZ EmptyString); eauto. Qed.

Lemma logTrices_end cmd port baud fn password show (e : Env Item) :
  let r := logTrices' cmd port baud fn password show e in
  r.2 = Returns None ∨ (∃ msg, r.2 = LogFatal msg) ∨ (∃ pt, r.2 = Receives pt baud).
Proof.
  intros r. subst r. unfold logTrices.
  destruct (createCipher_no_error password show) as (Herr & _ & _).
  assert (Hds : ∀ pt (e0 : Env Item),
            (doSerialReceive Item SetUp pt baud e0).2 = Returns None ∨
            (∃ msg, (doSerialReceive Item SetUp pt baud e0).2 = LogFatal msg) ∨
            (∃ pt', (doSerialReceive Item SetUp pt baud e0).2 = Receives pt' baud)).
  { intros pt e0. unfold doSerialReceive. destruct (SetUp pt baud); cbn; eauto. }
  destruct (String.eqb EmptyString port); [by left|].
  destruct (negb (String.eqb "none" fn)).
  - destruct (Read fn) as [l|]; [|by left].
    rewrite Herr. destruct (String.eqb port "COMscan"); [|apply Hds].
    destruct GetSerialPorts as [[|first ports]|msg]; cbn; eauto.
  - rewrite Herr. destruct (String.eqb port "COMscan"); [|apply Hds].
    destruct GetSerialPorts as [[|first ports]|msg]; cbn; eauto.
Qed.

(** X13: HandleArgs tests the number of arguments of the process but takes the
    subcommand from its own slice: it panics exactly when the process has
    two arguments or more and the slice has fewer; none of the subcommands
    panics.  With fewer than two arguments of the process it returns the
    error "no args, try: 'trice help'" and puts nothing out, whatever the
    slice holds. *)
Theorem HandleArgs_panics (wd : string) (args : list string) (e : Env Item) :
  ((∃ msg, (HandleArgs wd args e).2 = Panics msg) ↔
   (2 ≤ length osArgs ∧ length args < 2)%nat) ∧
  ((length osArgs < 2)%nat →
   (HandleArgs wd args e).2 = Returns (Some "no args, try: 'trice help'") ∧
   output _ (HandleArgs wd args e).1 = output _ e).
Proof.
  unfold HandleArgs.
  destruct (Nat.ltb_spec (length osArgs) 2) as [Hos|Hos].
  { split; [|done]. split; [by intros [? ?]|lia]. }
  split; [|lia].
  destruct args as [|a0 [|subCmd subArgs]]; cbn [length];
    [split; [lia|eauto]..|].
  split; [|lia]. intros [msg H]. exfalso. revert H.
  destruct (subCommand subCmd) as [f|]; [|done].
  destruct (prErr _) as [err|].
  { by destruct (exitOnError f). }
  destruct f.
  - by rewrite help_end.
  - destruct (Abs (pLU _)); [|done]. destruct (Abs (pSrcU _)); [|done].
    match goal with |- (update ?d ?s ?f ?v ?e0).2 = _ → _ =>
      by destruct (update_end d s f v e0) as [err ->] end.
  - by rewrite checkList_end.
  - match goal with |- (logTrices' ?c ?p ?b ?f ?k ?s ?e0).2 = _ → _ =>
      by destruct (logTrices_end c p b f k s e0) as [->|[[m ->]|[pt ->]]] end.
  - match goal with |- (zeroIds ?d ?s ?c ?e0).2 = _ → _ =>
      by destruct (zeroIds_end d s c e0) as [err ->] end.
  - by rewrite ver_end.
Qed.

(** X14: A subcommand other than h, help, version, u, update, check, log and
    zeroSourceTreeIds is answered by the line "try: 'trice help|h'" and the
    return of nil: nothing is parsed and nothing else is done.  So it is
    with upd, l, ver and v, which the help text names as subcommands. *)
Theorem HandleArgs_unknown (wd a0 subCmd : string) (subArgs : list string)
    (e : Env Item) :
  (2 ≤ length osArgs)%nat →
  subCmd ∉ ["h"; "help"; "version"; "u"; "update"; "check"; "log"; "zeroSourceTreeIds"] →
  HandleArgs wd (a0 :: subCmd :: subArgs) e
  = (mkEnv Item [] (rCipher _ e) (rCrypto _ e)
           (output _ e ++ [OutLine "try: 'trice help|h'"]), Returns None).
Proof.
  intros Hos Hsub%subCommand_None. unfold HandleArgs.
  destruct (Nat.ltb_spec (length osArgs) 2) as [?|_]; [lia|].
  by rewrite Hsub.
Qed.

(** X15: The subcommands help and version end as ver does: when the arguments
    parse, an executable without a version returns the error "No goreleaser
    generated executable", also after it has printed the help. *)
Theorem HandleArgs_help_error (wd a0 subCmd : string) (subArgs : list string)
    (e : Env Item) (f : FlagSet) :
  (2 ≤ length osArgs)%nat →
  subCommand subCmd = Some f →
  f = hCmd ∨ f = vCmd →
  prErr (Parse f subArgs (flagDefaults wd)) = None →
  (HandleArgs wd (a0 :: subCmd :: subArgs) e).2
  = Returns (if String.eqb EmptyString version
             then Some "No goreleaser generated executable" else None).
Proof.
  intros Hos Hsub Hf Hp. unfold HandleArgs.
  destruct (Nat.ltb_spec (length osArgs) 2) as [?|_]; [lia|].
  rewrite Hsub, Hp.
  destruct Hf as [->| ->]; [apply help_end|apply ver_end].
Qed.

(** X16: The subcommands check and log return an error only when the process
    has fewer than two arguments: that the ID list cannot be read, or the
    port not be set up, is printed and nil is returned. *)
Theorem HandleArgs_check_log (wd a0 subCmd : string) (subArgs : list string)
    (e : Env Item) (err : string) :
  subCmd ∈ ["check"; "log"] →
  (HandleArgs wd (a0 :: subCmd :: subArgs) e).2 = Returns (Some err) →
  (length osArgs < 2)%nat.
Proof.
  intros Hsub. unfold HandleArgs.
  destruct (Nat.ltb_spec (length osArgs) 2) as [?|_]; [done|].
  intros H. exfalso. revert H.
  rewrite !elem_of_cons in Hsub.
  destruct Hsub as [->|[->|Hn]]; [| |by apply elem_of_nil in Hn];
    cbn [subCommand String.eqb Ascii.eqb Bool.eqb exitOnError].
  - destruct (prErr _); [done|]. by rewrite checkList_end.
  - destruct (prErr _); [done|].
    match goal with |- (logTrices' ?c ?p ?b ?f ?k ?s ?e0).2 = _ → _ =>
      by destruct (logTrices_end c p b f k s e0) as [->|[[m ->]|[pt ->]]] end.
Qed.

End HandleArgsFacts.

Lemma HandleArgs_panics_witness :
  (HandleArgs nat (λ _, None) (inl []) (λ _ _, false) updateNone (λ _ _ _, [])
     inl parseDefaults EmptyString EmptyString EmptyString ["trice"; "help"]
     "/home" ["trice"] (mkEnv nat [] None false [])).2
  = Panics "index out of range".
Proof.
  destruct (HandleArgs_panics nat (λ _, None) (inl []) (λ _ _, false) updateNone
              (λ _ _ _, []) inl parseDefaults EmptyString EmptyString EmptyString
              ["trice"; "help"] "/home" ["trice"] (mkEnv nat [] None false []))
    as [[_ H] _].
  destruct H as [msg Hm]; [cbn; lia|].
  rewrite Hm. vm_compute in Hm. congruence.
Defined.

Lemma HandleArgs_unknown_witness :
  HandleArgs nat (λ _, None) (inl []) (λ _ _, false) updateNone (λ _ _ _, [])
    inl parseDefaults EmptyString EmptyString EmptyString ["trice"; "upd"]
    "/home" ["trice"; "upd"] (mkEnv nat [] None false [])
  = (mkEnv nat [] None false [OutLine "try: 'trice help|h'"], Returns None).
Proof.
  apply (HandleArgs_unknown nat (λ _, None) (inl []) (λ _ _, false) updateNone
           (λ _ _ _, []) inl parseDefaults EmptyString EmptyString EmptyString
           ["trice"; "upd"] "/home" "trice" "upd" [] (mkEnv nat [] None false [])).
  - cbn. lia.
  - by apply subCommand_None.
Defined.

Lemma HandleArgs_help_error_witness :
  (HandleArgs nat (λ _, None) (inl []) (λ _ _, false) updateNone (λ _ _ _, [])
     inl parseDefaults EmptyString EmptyString EmptyString ["trice"; "help"]
     "/home" ["trice"; "help"] (mkEnv nat [] None false [])).2
  = Returns (Some "No goreleaser generated executable").
Proof.
  apply (HandleArgs_help_error nat (λ _, None) (inl []) (λ _ _, false) updateNone
           (λ _ _ _, []) inl parseDefaults EmptyString EmptyString EmptyString
           ["trice"; "help"] "/home" "trice" "help" [] (mkEnv nat [] None false []) hCmd).
  - cbn. lia.
  - reflexivity.
  - by left.
  - reflexivity.
Defined.

Lemma HandleArgs_check_log_witness :
  (HandleArgs nat (λ _, None) (inl []) (λ _ _, false) updateNone (λ _ _ _, [])
     inl parseDefaults EmptyString EmptyString EmptyString ["trice"]
     "/home" ["trice"; "check"] (mkEnv nat [] None false [])).2
  = Returns (Some "no args, try: 'trice help'") ∧
  (length ["trice"] < 2)%nat.
Proof.
  assert (H : (HandleArgs nat (λ _, None) (inl []) (λ _ _, false) updateNone (λ _ _ _, [])
                 inl parseDefaults EmptyString EmptyString EmptyString ["trice"]
                 "/home" ["trice"; "check"] (mkEnv nat [] None false [])).2
              = Returns (Some "no args, try: 'trice help'")) by reflexivity.
  split; [exact H|].
  apply (HandleArgs_check_log nat (λ _, None) (inl []) (λ _ _, false) updateNone
           (λ _ _ _, []) inl parseDefaults EmptyString EmptyString EmptyString
           ["trice"] "/home" "trice" "check" [] (mkEnv nat [] None false [])
           "no args, try: 'trice help'"); [|exact H].
  rewrite !elem_of_cons. by left.
Defined.

Lemma logTrices_no_error_witness :
  let r := logTrices nat (λ _, None) (inl []) (λ _ _, false)
             lCmd "COM1" 38400 "til.json" "none" false (mkEnv nat [7%nat] None false []) in
  r.2 = Returns None ∧ idList _ r.1 = [7%nat].
Proof.
  intros r.
  destruct (logTrices_no_error nat (λ _, None) (inl []) (λ _ _, false)
              lCmd "COM1" 38400 "til.json" "none" false (mkEnv nat [7%nat] None false []))
    as [_ H].
  destruct H as (Hr & Hl & _); [right; split; [discriminate|reflexivity]|].
  split; [exact Hr|exact Hl].
Defined.

(** ** The remote display *)

Section RemoteFacts.

Variable Client : Type.
Variable Net : Type.
Variable Dial : Net → string → Net * (Client + string).
Variable Call : Net → Client → string → RpcArgs → Net * option string.
Variable showClient : Client → string.
Variables IPAddr IPPort : string.
Variable Verbose : bool.
Variable osArgs : list string.

Abbreviation rdWriteLine := (rdWriteLine Client Net Call).
Abbreviation Connect := (Connect Client Net Dial showClient Verbose).
Abbreviation NewRemoteDisplay :=
  (NewRemoteDisplay Client Net Dial showClient IPAddr IPPort Verbose).
Abbreviation stopServer := (stopServer Client Net Call Verbose).
Abbreviation ScShutdownRemoteDisplayServer :=
  (ScShutdownRemoteDisplayServer Client Net Dial Call showClient
     IPAddr IPPort Verbose osArgs).

(** X17: A line the server refuses is noticed one line late: [writeLine] stores
    the error of its call and returns; the next [writeLine] ends the process
    with that error before it sends anything, so its own line is lost. *)
Lemma writeLine_error_late (p : RemoteDisplay Client) (c : Client)
    (l1 l2 : list string) (wd : World Net) (n' : Net) (e : string) :
  rdErr _ p = None →
  rdPtrRPC _ p = Some c →
  Call (net _ wd) c "Server.WriteLine" (ArgLine l1) = (n', Some e) →
  ∃ p1 wd1,
    rdWriteLine p l1 wd = (wd1, Done p1) ∧
    rpcCalls _ wd1 = rpcCalls _ wd ++ [("Server.WriteLine", ArgLine l1)] ∧
    rdWriteLine p1 l2 wd1 = (wd1, Exit e).
Proof.
  intros He Hc HC.
  unfold rdWriteLine, rpcCall. rewrite He, Hc, HC. cbn.
  eexists _, _. split; [reflexivity|]. split; [reflexivity|]. reflexivity.
Qed.

(** Connect never panics and makes no remote call; when it returns, the
    display is connected and its stored error is the one it had (nil after
    a dial). *)
Lemma Connect_Done (p p' : RemoteDisplay Client) (wd wd' : World Net) :
  Connect p wd = (wd', Done p') →
  rpcCalls _ wd' = rpcCalls _ wd ∧
  rdCmd _ p' = rdCmd _ p ∧ rdParams _ p' = rdParams _ p ∧
  rdIPAddr _ p' = rdIPAddr _ p ∧ rdIPPort _ p' = rdIPPort _ p ∧
  match rdPtrRPC _ p with
  | Some c => wd' = wd ∧ rdPtrRPC _ p' = Some c ∧ rdErr _ p' = rdErr _ p
  | None =>
      rdErr _ p' = None ∧
      ∃ c, rdPtrRPC _ p' = Some c ∧
           Dial (net _ wd) (rdIPAddr _ p +:+ ":" +:+ rdIPPort _ p) = (net _ wd', inl c)
  end.
Proof.
  unfold Connect.
  destruct (rdPtrRPC _ p) as [c|] eqn:Hc.
  - intros [= <- <-]. by destruct Verbose.
  - destruct (Dial _ _) as [n' [c|e]] eqn:Hd; cbn.
    + intros [= <- <-]. destruct Verbose; cbn; eauto 10.
    + done.
Qed.

Lemma Connect_no_panic (p : RemoteDisplay Client) (wd wd' : World Net) msg :
  Connect p wd ≠ (wd', Panic msg).
Proof.
  unfold Connect.
  destruct (rdPtrRPC _ p); [done|].
  by destruct (Dial _ _) as [n' [c|e]].
Qed.

(** X18: The display that NewRemoteDisplay returns is connected to the address
    made of the package settings IPAddr and IPPort, whatever the arguments
    say: the first argument is kept as the command, the others, joined by
    spaces, as its parameters, and none of them is used as an address. *)
Theorem NewRemoteDisplay_address (w : Writer) (args : list string)
    (wd wd' : World Net) (p : RemoteDisplay Client) :
  NewRemoteDisplay w args wd = (wd', Done p) →
  ∃ cmd rest c,
    args = cmd :: rest ∧
    rdCmd _ p = cmd ∧ rdParams _ p = String.concat " " rest ∧
    rdIPAddr _ p = IPAddr ∧ rdIPPort _ p = IPPort ∧
    rdErr _ p = None ∧ rdPtrRPC _ p = Some c ∧
    Dial (net _ wd) (IPAddr +:+ ":" +:+ IPPort) = (net _ wd', inl c) ∧
    rpcCalls _ wd' = rpcCalls _ wd.
Proof.
  unfold NewRemoteDisplay. destruct args as [|cmd rest]; [done|].
  intros H. apply Connect_Done in H. cbn in H.
  destruct H as (Hcalls & -> & -> & -> & -> & He & c & Hc & Hd).
  by exists cmd, rest, c.
Qed.

(** X19: The error that ScShutdownRemoteDisplayServer returns is always nil: a
    failed dial or a failed shutdown call ends the process instead.  When it
    returns it has dialled the address of the package settings once and has
    made one call, Server.Shutdown with the time stamp flag; its own
    arguments play no part. *)
Theorem ScShutdownRemoteDisplayServer_nil (w : Writer) (timeStamp : Z)
    (args : list string) (wd wd' : World Net) (err : option string) :
  ScShutdownRemoteDisplayServer w timeStamp args wd = (wd', Done err) →
  err = None ∧
  rpcCalls _ wd' = rpcCalls _ wd ++ [("Server.Shutdown", ArgInts [timeStamp])] ∧
  ∃ c n1,
    Dial (net _ wd) (IPAddr +:+ ":" +:+ IPPort) = (n1, inl c) ∧
    Call n1 c "Server.Shutdown" (ArgInts [timeStamp]) = (net _ wd', None).
Proof.
  unfold ScShutdownRemoteDisplayServer.
  destruct (NewRemoteDisplay w osArgs wd) as [wd1 [p| |]] eqn:HN; [|done..].
  unfold NewRemoteDisplay in HN. destruct osArgs as [|cmd rest]; [done|].
  apply Connect_Done in HN. cbn in HN.
  destruct HN as (Hcalls & _ & _ & _ & _ & He & c & Hc & Hd).
  rewrite Hc. unfold stopServer, rpcCall.
  assert (Hv : rdPtrRPC _ (if Verbose then rdPrint _ p "sending Server.Shutdown..." else p)
               = Some c) by by destruct Verbose.
  rewrite Hv.
  destruct (Call _ _ _ _) as [n3 e3] eqn:HC. cbn.
  destruct e3 as [e3|]; cbn; [done|].
  intros [= <- <-]. cbn. rewrite Hcalls. split; [done|]. split; [done|].
  exists c, (net _ wd1). by rewrite Hd, HC.
Qed.

End RemoteFacts.

Lemma writeLine_error_late_witness :
  let p := mkRemoteDisplay nat [] None "trice" EmptyString "localhost" "61497" (Some 7%nat) in
  let wd := mkWorld nat 0%nat [] in
  ∃ p1 wd1,
    rdWriteLine nat nat callRefuse p ["a"; "b"] wd = (wd1, Done p1) ∧
    rpcCalls _ wd1 = [("Server.WriteLine", ArgLine ["a"; "b"])] ∧
    rdWriteLine nat nat callRefuse p1 ["c"] wd1 = (wd1, Exit "refused").
Proof.
  intros p wd.
  apply (writeLine_error_late nat nat callRefuse p 7%nat ["a"; "b"] ["c"] wd 0%nat "refused");
    reflexivity.
Defined.

Lemma NewRemoteDisplay_address_witness :
  let r := NewRemoteDisplay nat nat dialOK (λ _, "client") "localhost" "61497" false
             [] ["trice"; "ds"; "-ipa"; "10.0.0.1"] (mkWorld nat 0%nat []) in
  ∃ p, r.2 = Done p ∧ rdParams _ p = "ds -ipa 10.0.0.1" ∧
       rdIPAddr _ p = "localhost" ∧ rdPtrRPC _ p = Some 0%nat.
Proof.
  intros r.
  destruct r as [wd' [p| |]] eqn:Hr; [|vm_compute in Hr; discriminate Hr..].
  destruct (NewRemoteDisplay_address nat nat dialOK (λ _, "client") "localhost" "61497"
              false [] ["trice"; "ds"; "-ipa"; "10.0.0.1"] (mkWorld nat 0%nat []) wd' p Hr)
    as (cmd & rest & c & [= <- <-] & _ & Hp & Ha & _ & _ & Hc & [= _ <-] & _).
  exists p. split; [reflexivity|]. split; [exact Hp|]. split; [exact Ha|exact Hc].
Defined.

Lemma ScShutdownRemoteDisplayServer_nil_witness :
  let r := ScShutdownRemoteDisplayServer nat nat dialOK callRefuse (λ _, "client")
             "localhost" "61497" true ["trice"; "sd"] [] 1 ["10.0.0.1"; "1234"]
             (mkWorld nat 0%nat []) in
  r.2 = Done None ∧ rpcCalls _ r.1 = [("Server.Shutdown", ArgInts [1])].
Proof.
  intros r.
  destruct r as [wd' [err| |]] eqn:Hr; [|vm_compute in Hr; discriminate Hr..].
  destruct (ScShutdownRemoteDisplayServer_nil nat nat dialOK callRefuse (λ _, "client")
              "localhost" "61497" true ["trice"; "sd"] [] 1 ["10.0.0.1"; "1234"]
              (mkWorld nat 0%nat []) wd' err Hr) as (-> & Hcalls & _).
  split; [reflexivity|exact Hcalls].
Defined.

(** ** The time base of the target *)

Import Target.

Lemma iter_S {A} (f : A → A) (n : nat) (x : A) :
  Nat.iter (S n) f x = f (Nat.iter n f x).
Proof. reflexivity. Qed.

(** X20: After n system ticks from the reset the counters hold: us64 the
    microseconds 1000 n, us16 one of 0, 1000, ... 9000, namely 1000 times
    the last digit of n, ms32 the ticks, and ms16 the ticks modulo 10000;
    the last reading is not touched. *)
Theorem SysTick_Handler_counters (n : nat) :
  let c := Nat.iter n SysTick_Handler reset in
  us64 c = (1000 * Z.of_nat n) mod 2 ^ 64 ∧
  us16 c = 1000 * (Z.of_nat n mod 10) ∧
  ms32 c = Z.of_nat n mod 2 ^ 32 ∧
  ms16 c = Z.of_nat n mod 10000 ∧
  us_1 c = 0.
Proof.
  induction n as [|n IH]; [done|].
  rewrite iter_S. cbv zeta in IH. destruct IH as (H64 & H16 & H32 & Hm16 & H1).
  set (c := Nat.iter n SysTick_Handler reset) in *.
  unfold SysTick_Handler. cbn [us64 us16 ms32 ms16 us_1].
  rewrite H64, H16, H32, Hm16, H1. unfold u64, u32, u16.
  rewrite Nat2Z.inj_succ.
  set (k := Z.of_nat n). assert (0 ≤ k) by lia.
  repeat split.
  - rewrite Zplus_mod_idemp_l. f_equal. lia.
  - assert (0 ≤ k mod 10 < 10) by (apply Z.mod_pos_bound; lia).
    rewrite (Z.mod_small (1000 * (k mod 10) + 1000)) by lia.
    destruct (Z.ltb_spec (1000 * (k mod 10) + 1000) 10000) as [Hlt|Hge].
    + replace (Z.succ k mod 10) with (k mod 10 + 1); [lia|].
      unfold Z.succ. rewrite (Z.add_mod k 1 10) by lia.
      rewrite (Z.mod_small 1 10) by lia.
      rewrite (Z.mod_small (k mod 10 + 1)); lia.
    + assert (k mod 10 = 9) as H9 by lia.
      unfold Z.succ. rewrite (Z.add_mod k 1 10) by lia. rewrite H9. reflexivity.
  - rewrite Zplus_mod_idemp_l. reflexivity.
  - assert (0 ≤ k mod 10000 < 10000) by (apply Z.mod_pos_bound; lia).
    rewrite (Z.mod_small (k mod 10000 + 1)) by lia.
    destruct (Z.ltb_spec (k mod 10000 + 1) 10000) as [Hlt|Hge].
    + unfold Z.succ. rewrite (Z.add_mod k 1 10000) by lia.
      rewrite (Z.mod_small 1 10000) by lia.
      rewrite (Z.mod_small (k mod 10000 + 1)); lia.
    + assert (k mod 10000 = 9999) as H9 by lia.
      unfold Z.succ. rewrite (Z.add_mod k 1 10000) by lia. rewrite H9. reflexivity.
Qed.

(** With the reload value 47999 of a 48 MHz clock the microsecond part is
    computed without overflow of its 32 bits; it is at most 999 and is the
    number of whole microseconds since the tick or one less. *)
Lemma usOffset_bound (VAL : Z) :
  0 ≤ VAL ≤ 47999 →
  usOffset 47999 VAL = (47999 - VAL) * 87381 / 2 ^ 22 ∧
  0 ≤ usOffset 47999 VAL ≤ 999 ∧
  (47999 - VAL) / 48 - 1 ≤ usOffset 47999 VAL ≤ (47999 - VAL) / 48.
Proof.
  intros HV. unfold usOffset, u32.
  set (d := 47999 - VAL). assert (0 ≤ d ≤ 47999) as Hd by lia.
  rewrite (Z.mod_small d) by lia.
  rewrite (Z.mod_small (d * 87381)) by lia.
  rewrite Z.shiftr_div_pow2 by lia.
  split; [reflexivity|].
  pose proof (Z.div_mod d 48 ltac:(lia)) as Hdm.
  pose proof (Z.mod_pos_bound d 48 ltac:(lia)) as Hr.
  set (q := d / 48) in *. set (r := d mod 48) in *.
  assert (0 ≤ q ≤ 999) as Hq by lia.
  assert (q - 1 ≤ d * 87381 / 2 ^ 22 ≤ q) as Hb.
  { split.
    - apply Z.div_le_lower_bound; lia.
    - apply Z.lt_succ_r, Z.div_lt_upper_bound; lia. }
  assert (0 ≤ d * 87381 / 2 ^ 22) by (apply Z.div_pos; lia).
  lia.
Qed.

(** X21: A reading of the microsecond tick with the reload value 47999, as long
    as the 64 bits do not wrap: it is the counter plus the microsecond part,
    which is at most 999 and is the number of whole microseconds since the
    tick or one less, plus 1000 when that lies before the last reading; the
    reading goes back in time exactly when the last reading is more than
    1000 microseconds ahead; Us32 returns its low 32 bits, and the tick
    counters stay. *)
Theorem Us32_reading (VAL : Z) (c : Counters) :
  0 ≤ VAL ≤ 47999 →
  0 ≤ us64 c → us64 c + 2000 < 2 ^ 64 → 0 ≤ us_1 c →
  let r := Us32 47999 VAL c in
  let us := us64 c + usOffset 47999 VAL in
  us64 c ≤ us ≤ us64 c + 999 ∧
  (47999 - VAL) / 48 - 1 ≤ us - us64 c ≤ (47999 - VAL) / 48 ∧
  us_1 r.1 = us + (if us <? us_1 c then 1000 else 0) ∧
  (us_1 c ≤ us_1 r.1 ↔ us_1 c ≤ us + 1000) ∧
  r.2 = us_1 r.1 mod 2 ^ 32 ∧
  us64 r.1 = us64 c ∧ us16 r.1 = us16 c ∧ ms32 r.1 = ms32 c ∧ ms16 r.1 = ms16 c.
Proof.
  intros HV H0 Hw H1 r us. subst r us.
  destruct (usOffset_bound VAL HV) as (_ & Ho & Hm).
  unfold Us32, US_DUTY. cbn [fst snd us64 us16 ms32 ms16 us_1].
  set (off := usOffset 47999 VAL) in *.
  unfold u64, u32.
  rewrite (Z.mod_small (us64 c + off)) by lia.
  split; [lia|]. split; [lia|].
  destruct (Z.ltb_spec (us64 c + off) (us_1 c)) as [Hlt|Hge];
    rewrite Z.mod_small by lia; repeat split; lia.
Qed.

Lemma Us32_reading_witness :
  let c := mkCounters 5000 5000 5 5 5990 in
  let r := Us32 47999 47951 c in
  us_1 r.1 = 6000 ∧ r.2 = 6000.
Proof.
  intros c r.
  destruct (Us32_reading 47951 c) as (_ & _ & H1 & _ & H2 & _); [cbn; lia..|].
  fold r in H1, H2. rewrite H2, H1. split; reflexivity.
Defined.

